(** * ImHex application shell: a shallow embedding of [source/window.cpp]

    The file follows the source top to bottom: the settings handler
    ([ImHexSettingsHandler_ReadLine], [ImHexSettingsHandler_WriteAll]), the
    [Events::FileLoaded] subscriber that maintains the recent-files list, the
    constructor's tail that loads it, the destructor, the frame loop
    ([Window::loop], [Window::frameBegin]), the GLFW key callback and
    [Window::initPlugins].  Definitions come first, the properties after
    them.

    What the shell calls but does not define is kept at its interface.  The
    ImGui and GLFW calls the shell branches on are inputs of a frame
    ([FrameInput]).  The hooks of a view and the deferred calls are code of
    the views: a hook is the value it returns, a deferred call is the calls
    it defers in turn, and neither changes the registry.  What a frame, the
    destructor or [initPlugins] does is recorded as a trace, in order. *)

From Stdlib Require Import List String Ascii ZArith Bool Arith Lia DecimalString.
From Stdlib.Strings Require Byte.
Import ListNotations.

Local Open Scope string_scope.
Local Open Scope list_scope.

(** ** C strings and the part of [sscanf] the settings handler uses *)

(** A C string ends at its first NUL byte: [%s], [c_str()] and the [line]
    argument of the handler are all read that way. *)
Fixpoint c_str (s : list ascii) : list ascii :=
  match s with
  | [] => []
  | c :: rest => if Ascii.eqb c zero then [] else c :: c_str rest
  end.

(** [isspace] in the C locale: space, and the control characters 9 to 13. *)
Definition isspace (c : ascii) : bool :=
  let n := nat_of_ascii c in
  ((n =? 32) || ((9 <=? n) && (n <=? 13)))%nat.

Definition isdigit (c : ascii) : bool :=
  let n := nat_of_ascii c in
  ((48 <=? n) && (n <=? 57))%nat.

Definition digit_value (c : ascii) : Z := (Z.of_nat (nat_of_ascii c) - 48)%Z.

(** What a white-space directive (and the start of [%d]) does to the input. *)
Fixpoint skip_space (input : list ascii) : list ascii :=
  match input with
  | c :: rest => if isspace c then skip_space rest else input
  | [] => []
  end.

Fixpoint scan_digits (acc : Z) (input : list ascii) : Z * list ascii :=
  match input with
  | c :: rest =>
      if isdigit c then scan_digits (10 * acc + digit_value c)%Z rest
      else (acc, input)
  | [] => (acc, [])
  end.

(** The subject sequence of [%d]: an optional sign and at least one decimal
    digit, with the number it denotes.  [None] is a matching failure. *)
Definition scan_int (input : list ascii) : option (Z * list ascii) :=
  match input with
  | [] => None
  | c :: rest =>
      if isdigit c then Some (scan_digits 0%Z input)
      else if Ascii.eqb c "-" then
        match rest with
        | d :: _ => if isdigit d
                    then let '(n, r) := scan_digits 0%Z rest in Some ((- n)%Z, r)
                    else None
        | [] => None
        end
      else if Ascii.eqb c "+" then
        match rest with
        | d :: _ => if isdigit d then Some (scan_digits 0%Z rest) else None
        | [] => None
        end
      else None
  end%char.

(** The values an [int] can hold. *)
Definition INT_MIN : Z := (- 2 ^ 31)%Z.
Definition INT_MAX : Z := (2 ^ 31 - 1)%Z.

Definition fits_int (n : Z) : bool := ((INT_MIN <=? n) && (n <=? INT_MAX))%Z.

(** [sscanf input fmt]: the integers it assigns, in order.  The directives
    are those the handler's formats can be made of: a white-space character
    (skips any white space of the input, possibly none), [%d], [%%] (skips
    white space, then must meet a percent sign) and an ordinary character
    (must be the next input character).  Scanning stops at the first
    directive that fails.  [None] is a call whose result C does not define or
    this model does not follow: a number scanned by [%d] that does not fit an
    [int], and any conversion specification other than [%d] and [%%]. *)
Fixpoint sscanf (input fmt : list ascii) : option (list Z) :=
  match fmt with
  | [] => Some []
  | c :: fmt' =>
      if isspace c then sscanf (skip_space input) fmt'
      else if Ascii.eqb c "%" then
        match fmt' with
        | d :: fmt'' =>
            if Ascii.eqb d "d" then
              match scan_int (skip_space input) with
              | Some (n, rest) =>
                  if fits_int n then option_map (cons n) (sscanf rest fmt'')
                  else None
              | None => Some []
              end
            else if Ascii.eqb d "%" then
              match skip_space input with
              | i :: input' => if Ascii.eqb i "%" then sscanf input' fmt'' else Some []
              | [] => Some []
              end
            else None
        | [] => None
        end
      else
        match input with
        | i :: input' => if Ascii.eqb c i then sscanf input' fmt' else Some []
        | [] => Some []
        end
  end%char.

Definition chars (s : string) : list ascii := list_ascii_of_string s.

(** The line feed the writer's format strings end with. *)
Definition line_feed : ascii := ascii_of_nat 10.

Definition LF : string := String line_feed EmptyString.

(** [%d] applied to an [int]: its decimal digits, after a minus sign when it
    is negative. *)
Definition format_d (n : Z) : string := NilZero.string_of_int (Z.to_int n).

(** [%s] applied to a [char *]. *)
Definition format_s (s : string) : string := string_of_list_ascii (c_str (chars s)).

(** ** The recent-files list ([Events::FileLoaded] subscriber, lines 85-117) *)

(** Lines 94-98: the flag [exists] after comparing [file] with every entry of
    [uniques]. *)
Definition exists_in (file : string) (uniques : list string) : bool :=
  fold_left (fun exists_ unique => if String.eqb file unique then true else exists_)
            uniques false.

(** Lines 91-105: the loop over [m_recentFiles] that fills [uniques].  The
    size test of line 103 comes after the [push_back] of line 101, and its
    [break] leaves the loop with the entry just pushed still in [uniques]. *)
Fixpoint collect_uniques (files uniques : list string) : list string :=
  match files with
  | [] => uniques
  | file :: rest =>
      let uniques' := if exists_in file uniques then uniques else uniques ++ [file] in
      if (5 <? List.length uniques')%nat then uniques'
      else collect_uniques rest uniques'
  end.

(** The two places the list lives in: the member [m_recentFiles] and the
    value stored under ["ImHex"]/["RecentFiles"] in the settings. *)
Record RecentFiles : Type := {
  m_recentFiles : list string;
  settings_RecentFiles : list string
}.

(** The subscriber: [push_front], rebuild through [uniques], write the
    settings entry. *)
Definition onFileLoaded (path : string) (st : RecentFiles) : RecentFiles :=
  let pushed := path :: m_recentFiles st in
  let uniques := collect_uniques pushed [] in
  {| m_recentFiles := uniques; settings_RecentFiles := uniques |}.

Definition postFileLoaded (paths : list string) (st : RecentFiles) : RecentFiles :=
  fold_left (fun st path => onFileLoaded path st) paths st.

(** Lines 128-129, the end of the constructor: every stored path is pushed
    to the back of [m_recentFiles]. *)
Definition loadRecentFiles (st : RecentFiles) : RecentFiles :=
  {| m_recentFiles :=
       fold_left (fun files path => files ++ [path]) (settings_RecentFiles st)
                 (m_recentFiles st);
     settings_RecentFiles := settings_RecentFiles st |}.

(** A freshly constructed window before line 128: the member is an empty
    [std::list], the settings hold what the last run stored. *)
Definition startup (stored : list string) : RecentFiles :=
  {| m_recentFiles := []; settings_RecentFiles := stored |}.

(** ** Deferred calls (lines 150-152) *)

(** A deferred call, as far as the shell can observe it: it runs (the tag
    names it in the trace) and it may hand further calls to [View::doLater],
    which pushes them to the back of the same queue. *)
#[warnings="-register-all"]
Inductive Call : Type :=
| MkCall (tag : nat) (doLater : list Call).

Definition call_tag (c : Call) : nat := match c with MkCall t _ => t end.
Definition call_doLater (c : Call) : list Call := match c with MkCall _ l => l end.

(** The range-for of line 150 over the queue: the calls of the range fixed
    at loop entry run in order, each appending to the live queue.  Returns
    the tags run and the queue as the loop leaves it.  The container behind
    [View::getDeferedCalls] is declared outside this file.  A queue whose
    calls defer nothing is iterated this way by any container.  When a call
    defers another one, this is a [std::vector] that has room for it; a
    linked list goes on to the appended call ([run_calls_reaching_appended]
    below), and a vector that has to grow leaves the loop undefined. *)
Fixpoint run_calls (range queue : list Call) : list nat * list Call :=
  match range with
  | [] => ([], queue)
  | call :: rest =>
      let '(tags, queue') := run_calls rest (queue ++ call_doLater call) in
      (call_tag call :: tags, queue')
  end.

(** Lines 150-152: run the queue, then [clear()] it. *)
Definition drainDeferedCalls (queue : list Call) : list nat * list Call :=
  let '(tags, _) := run_calls queue queue in
  (tags, []).

(** The same two lines for a container whose iteration also reaches the
    elements appended while it runs (a linked list): every call met is run,
    its own deferred calls included, before [clear()].  [fuel] bounds the
    number of calls run. *)
Fixpoint run_calls_reaching_appended (fuel : nat) (queue : list Call) : option (list nat) :=
  match fuel with
  | O => match queue with [] => Some [] | _ :: _ => None end
  | S fuel' =>
      match queue with
      | [] => Some []
      | call :: rest =>
          option_map (cons (call_tag call))
                     (run_calls_reaching_appended fuel' (rest ++ call_doLater call))
      end
  end.

(** ** The GLFW key callback (lines 438-454) *)

Definition GLFW_RELEASE : Z := 0.
Definition GLFW_PRESS : Z := 1.
Definition GLFW_MOD_SHIFT : Z := 1.
Definition GLFW_MOD_CONTROL : Z := 2.
Definition GLFW_MOD_ALT : Z := 4.

Record ImGuiIO : Type := {
  KeysDown : Z -> bool;
  KeyCtrl : bool;
  KeyShift : bool;
  KeyAlt : bool
}.

Record KeyEvent : Type := {
  ev_key : Z;
  ev_scancode : Z;
  ev_action : Z;
  ev_mods : Z
}.

(** [io.KeysDown] is an array of 512 [bool]s ([imgui.h]). *)
Definition KeysDown_size : Z := 512.

(** [io.KeysDown[key] = down] (lines 442 and 446).  The callback does not
    test the index; a key outside the array ([GLFW_KEY_UNKNOWN] is -1) makes
    the store undefined in C.  The array is left as it is in that case, and
    what is proved of [KeysDown] is proved for keys inside the array. *)
Definition set_key (keys : Z -> bool) (key : Z) (down : bool) : Z -> bool :=
  if ((0 <=? key) && (key <? KeysDown_size))%Z
  then fun k => if (k =? key)%Z then down else keys k
  else keys.

Definition key_io (io : ImGuiIO) (key mods : Z) (down : bool) : ImGuiIO :=
  {| KeysDown := set_key (KeysDown io) key down;
     KeyCtrl := negb (Z.land mods GLFW_MOD_CONTROL =? 0)%Z;
     KeyShift := negb (Z.land mods GLFW_MOD_SHIFT =? 0)%Z;
     KeyAlt := negb (Z.land mods GLFW_MOD_ALT =? 0)%Z |}.

(** The callback acts on the static [Window::s_currShortcut] and on the
    ImGui input state. *)
Definition keyCallback (ev : KeyEvent) (st : (Z * Z) * ImGuiIO) : (Z * Z) * ImGuiIO :=
  let '(shortcut, io) := st in
  if (ev_action ev =? GLFW_PRESS)%Z then
    ((ev_key ev, ev_mods ev), key_io io (ev_key ev) (ev_mods ev) true)
  else if (ev_action ev =? GLFW_RELEASE)%Z then
    (shortcut, key_io io (ev_key ev) (ev_mods ev) false)
  else (shortcut, io).

(** [glfwPollEvents] (line 206) as far as keys go: the callback runs once per
    key event the poll delivers, in order. *)
Definition glfwPollEvents (events : list KeyEvent) (st : (Z * Z) * ImGuiIO)
  : (Z * Z) * ImGuiIO :=
  fold_left (fun st ev => keyCallback ev st) events st.

Definition no_shortcut : Z * Z := ((-1)%Z, (-1)%Z).

(** ** Plugins ([Window::initPlugins], lines 550-559) *)

Inductive Exception : Type :=
| runtime_error
| other_exception.

(** How a call ends: it returns, or an exception leaves it. *)
Inductive Outcome : Type :=
| Returns
| Throws (e : Exception).

(** A plugin as [initPlugins] sees it: [initializePlugin] is a call into the
    loaded module, whose only way to fail is to throw. *)
Record Plugin : Type := {
  plugin_name : string;
  initializePlugin : Outcome
}.

(** What [PluginHandler::load] can do: return, leaving the plugins that
    [PluginHandler::getPlugins] then lists, or throw. *)
Inductive LoadResult : Type :=
| Loaded (plugins : list Plugin)
| LoadThrows (e : Exception).

(** Modelled from the spec: [PluginHandler::load] is declared in
    [helpers/plugin_handler.hpp], outside this file.  For a directory that
    does not exist the spec says the manager ends with an empty plugin set;
    the [catch] clause of line 554 expects a [std::runtime_error].  Both
    reports are accepted here. *)
Definition reports_missing_directory (r : LoadResult) : bool :=
  match r with
  | Loaded [] => true
  | LoadThrows runtime_error => true
  | _ => false
  end.

(** Lines 556-558: the loop over the plugins.  Returns the names of the
    plugins whose entry point was called, in order, and how the loop ended;
    nothing catches what an entry point throws. *)
Fixpoint initialize_plugins (plugins : list Plugin) : list string * Outcome :=
  match plugins with
  | [] => ([], Returns)
  | plugin :: rest =>
      match initializePlugin plugin with
      | Returns =>
          let '(called, outcome) := initialize_plugins rest in
          (plugin_name plugin :: called, outcome)
      | Throws e => ([plugin_name plugin], Throws e)
      end
  end.

Definition initPlugins (load : LoadResult) : list string * Outcome :=
  match load with
  | LoadThrows runtime_error => ([], Returns)
  | LoadThrows e => ([], Throws e)
  | Loaded plugins => initialize_plugins plugins
  end.

(** ** Event subscriptions (constructor lines 66-123, destructor line 143) *)

Inductive Events : Type :=
| SettingsChanged
| FileLoaded
| CloseImHex
| OpenWindow
| FileDropped
| WindowClosing.

Definition Events_eqb (a b : Events) : bool :=
  match a, b with
  | SettingsChanged, SettingsChanged | FileLoaded, FileLoaded
  | CloseImHex, CloseImHex | OpenWindow, OpenWindow
  | FileDropped, FileDropped | WindowClosing, WindowClosing => true
  | _, _ => false
  end.

(** A subscription: the event and the owner ([this], an address). *)
Record EventHandler : Type := {
  eventType : Events;
  owner : nat
}.

(** Modelled from the spec: [EventManager::subscribe], declared outside
    this file, adds a subscription behind the ones already there. *)
Definition subscribe (ev : Events) (this : nat) (handlers : list EventHandler)
  : list EventHandler :=
  handlers ++ [{| eventType := ev; owner := this |}].

(** Modelled from the spec: [EventManager::unsubscribe], declared outside
    this file, removes the subscriptions of one owner for one event. *)
Definition unsubscribe (ev : Events) (this : nat) (handlers : list EventHandler)
  : list EventHandler :=
  filter (fun h => negb (Events_eqb (eventType h) ev && Nat.eqb (owner h) this)) handlers.

(** The three [EventManager::subscribe] calls of the constructor, in order. *)
Definition Window_subscribe (this : nat) (handlers : list EventHandler)
  : list EventHandler :=
  subscribe CloseImHex this
    (subscribe FileLoaded this
       (subscribe SettingsChanged this handlers)).

Definition owned_by (this : nat) (handlers : list EventHandler) : list Events :=
  map eventType (filter (fun h => Nat.eqb (owner h) this) handlers).

(** ** Views, the settings handler, the frame and the destructor *)

Section Shell.

(** [ImVec2] holds two [float]s.  The shell only multiplies them by the
    global scale, so the number type and its product are left abstract. *)
Context {scalar : Type} (scalar_mul : scalar -> scalar -> scalar).

Record ImVec2 : Type := {
  vec_x : scalar;
  vec_y : scalar
}.

(** A registered view, through the members the shell calls.  The hooks are
    code of the view: what the shell gets back from them is the value they
    return.  [getWindowOpenState()] returns a reference to a [bool];
    [windowOpenState] is the byte that [bool] occupies. *)
Record View : Type := {
  getName : string;
  windowOpenState : Byte.byte;
  isAvailable : bool;
  hasViewMenuItemEntry : bool;
  getMinSize : ImVec2;
  getMaxSize : ImVec2;
  handleShortcut : Z -> Z -> bool
}.

(** The flag read as a [bool]: any byte but zero is true. *)
Definition getWindowOpenState (view : View) : bool :=
  negb (Byte.eqb (windowOpenState view) Byte.x00).

(** The flag promoted to [int], as the variadic call of line 42 passes it. *)
Definition flag_value (view : View) : Z := Z.of_N (Byte.to_N (windowOpenState view)).

(** A store of one byte at the address of the flag. *)
Definition storeWindowOpenState (view : View) (flag : Byte.byte) : View :=
  {| getName := getName view;
     windowOpenState := flag;
     isAvailable := isAvailable view;
     hasViewMenuItemEntry := hasViewMenuItemEntry view;
     getMinSize := getMinSize view;
     getMaxSize := getMaxSize view;
     handleShortcut := handleShortcut view |}.

(** A [bool] assigned to the flag: the byte 1 or 0. *)
Definition setWindowOpenState (view : View) (open : bool) : View :=
  storeWindowOpenState view (if open then Byte.x01 else Byte.x00).

(** The byte an [int] has at its lowest address, little-endian as on the
    targets ImHex is built for: the value modulo 256. *)
Definition low_byte (n : Z) : Byte.byte :=
  match Byte.of_N (Z.to_N (n mod 256)) with
  | Some b => b
  | None => Byte.x00
  end.

(** *** The settings handler (lines 29-46) *)

(** Lines 31-32 for one view.  The only argument [sscanf] gets is the
    address of the flag (line 238 hands the same address to
    [ImGui::MenuItem] as a [bool *]), and [%d] stores an [int] there: the
    flag takes the low byte of the scanned integer.  The three bytes behind
    the flag are overwritten as well; what they belong to is not part of this
    model.  [None]: the call is undefined (see [sscanf]), or the name holds
    a conversion of its own and a second integer is stored through an
    argument that was not passed. *)
Definition ReadLine_view (line : string) (view : View) : option View :=
  let format := (getName view ++ "=%d")%string in
  match sscanf (c_str (chars line)) (c_str (chars format)) with
  | Some [] => Some view
  | Some [n] => Some (storeWindowOpenState view (low_byte n))
  | _ => None
  end.

(** Lines 30-33: the loop over the registry. *)
Fixpoint ImHexSettingsHandler_ReadLine (line : string) (entries : list View)
  : option (list View) :=
  match entries with
  | [] => Some []
  | view :: rest =>
      match ReadLine_view line view with
      | Some view' => option_map (cons view') (ImHexSettingsHandler_ReadLine line rest)
      | None => None
      end
  end.

(** Line 42 without its line feed: the text of one entry. *)
Definition entry_text (view : View) : string :=
  (format_s (getName view) ++ "=" ++ format_d (flag_value view))%string.

Definition ImHexSettingsHandler_WriteAll (TypeName : string) (entries : list View)
  (buf : string) : string :=
  let buf := (buf ++ "[" ++ format_s TypeName ++ "][General]" ++ LF)%string in
  let buf := fold_left (fun buf view => (buf ++ entry_text view ++ LF)%string) entries buf in
  (buf ++ LF)%string.

(** Feeding lines to the reader one after the other, as the settings loader
    does with the lines of a section. *)
Fixpoint read_lines (lines : list string) (entries : list View) : option (list View) :=
  match lines with
  | [] => Some entries
  | line :: rest =>
      match ImHexSettingsHandler_ReadLine line entries with
      | Some entries' => read_lines rest entries'
      | None => None
      end
  end.

(** *** The frame (lines 146-175 and 205-298) *)

(** What one frame does that a view or the user can observe, in order. *)
Inductive Effect : Type :=
| FxPollEvents
| FxMenuItem (label : string)
| FxDrawMenu (view : string)
| FxHandleShortcut (view : string) (key mods : Z)
| FxWelcomeScreen
| FxDeferredCall (tag : nat)
| FxDrawContent (view : string) (minSize maxSize : ImVec2)
| FxDrawCommonInterfaces
| FxFrameEnd.

(** What the collaborators answer during one frame: the key events the poll
    delivers, and the results of the ImGui calls the shell branches on. *)
Record FrameInput : Type := {
  windowShouldClose : bool;
  keyEvents : list KeyEvent;
  beginDockSpace : bool;
  beginMenuBar : bool;
  beginViewMenu : bool;
  menuItemClicked : string -> bool;
  beginWelcomeWindow : bool;
  beginWelcomeChild : bool
}.

Record Window : Type := {
  entries : list View;
  deferedCalls : list Call;
  s_currShortcut : Z * Z;
  io : ImGuiIO;
  m_globalScale : scalar
}.

(** Lines 236-239: one [MenuItem] per view that wants one; a click flips the
    flag whose address it was given. *)
Fixpoint viewMenuItems (clicked : string -> bool) (views : list View)
  : list Effect * list View :=
  match views with
  | [] => ([], [])
  | view :: rest =>
      let '(fx, rest') := viewMenuItems clicked rest in
      if hasViewMenuItemEntry view then
        let label := (getName view ++ " View")%string in
        let view' := if clicked label
                     then setWindowOpenState view (negb (getWindowOpenState view))
                     else view in
        (FxMenuItem label :: fx, view' :: rest')
      else (fx, view :: rest')
  end.

(** Lines 230-265.  The static menus of line 232 are empty, and the FPS
    entry and counter of lines 247-262 touch nothing the views or the
    shortcut depend on; they leave no trace here. *)
Definition menuBar (inp : FrameInput) (views : list View) : list Effect * list View :=
  if beginMenuBar inp then
    let '(items, views') :=
      if beginViewMenu inp then viewMenuItems (menuItemClicked inp) views
      else ([], views) in
    (items ++ map (fun view => FxDrawMenu (getName view)) views', views')
  else ([], views).

(** Lines 268-273: the loop that offers the shortcut, with its [break]. *)
Fixpoint offerShortcut (views : list View) (key mods : Z) : list Effect :=
  match views with
  | [] => []
  | view :: rest =>
      if getWindowOpenState view then
        FxHandleShortcut (getName view) key mods ::
          (if handleShortcut view key mods then [] else offerShortcut rest key mods)
      else offerShortcut rest key mods
  end.

(** Lines 267-276. *)
Definition dispatchShortcut (views : list View) (shortcut : Z * Z)
  : list Effect * (Z * Z) :=
  let '(key, mods) := shortcut in
  if negb (key =? -1)%Z then (offerShortcut views key mods, no_shortcut)
  else ([], shortcut).

(** Lines 278-280. *)
Definition anyViewOpen (views : list View) : bool :=
  fold_left (fun any view => any || (getWindowOpenState view && isAvailable view))
            views false.

(** Lines 282-294. *)
Definition welcome (inp : FrameInput) (views : list View) : list Effect :=
  if negb (anyViewOpen views) then
    if beginWelcomeWindow inp then
      if beginWelcomeChild inp then [FxWelcomeScreen] else []
    else []
  else [].

Definition frameBegin (inp : FrameInput) (w : Window) : list Effect * Window :=
  let '(shortcut, io') := glfwPollEvents (keyEvents inp) (s_currShortcut w, io w) in
  if beginDockSpace inp then
    let '(menuFx, views) := menuBar inp (entries w) in
    let '(shortcutFx, shortcut') := dispatchShortcut views shortcut in
    (FxPollEvents :: menuFx ++ shortcutFx ++ welcome inp views,
     {| entries := views; deferedCalls := deferedCalls w;
        s_currShortcut := shortcut'; io := io';
        m_globalScale := m_globalScale w |})
  else
    ([FxPollEvents],
     {| entries := entries w; deferedCalls := deferedCalls w;
        s_currShortcut := shortcut; io := io';
        m_globalScale := m_globalScale w |}).

(** Lines 154-164: the draw pass, with its [continue]. *)
Fixpoint drawViews (scale : scalar) (views : list View) : list Effect :=
  match views with
  | [] => []
  | view :: rest =>
      if negb (isAvailable view) || negb (getWindowOpenState view) then
        drawViews scale rest
      else
        let minSize := {| vec_x := scalar_mul (vec_x (getMinSize view)) scale;
                          vec_y := scalar_mul (vec_y (getMinSize view)) scale |} in
        FxDrawContent (getName view) minSize (getMaxSize view) :: drawViews scale rest
  end.

(** Lines 148-173: the body of the [while] loop. *)
Definition loop_body (inp : FrameInput) (w : Window) : list Effect * Window :=
  let '(beginFx, w1) := frameBegin inp w in
  let '(tags, queue) := drainDeferedCalls (deferedCalls w1) in
  let w2 := {| entries := entries w1; deferedCalls := queue;
               s_currShortcut := s_currShortcut w1; io := io w1;
               m_globalScale := m_globalScale w1 |} in
  (beginFx ++ map FxDeferredCall tags
           ++ drawViews (m_globalScale w2) (entries w2)
           ++ [FxDrawCommonInterfaces; FxFrameEnd],
   w2).

(** [Window::loop]: one trace per frame, until the window is to close (or
    the frames given run out). *)
Fixpoint loop (frames : list FrameInput) (w : Window) : list (list Effect) * Window :=
  match frames with
  | [] => ([], w)
  | inp :: rest =>
      if windowShouldClose inp then ([], w)
      else
        let '(fx, w') := loop_body inp w in
        let '(traces, w'') := loop rest w' in
        (fx :: traces, w'')
  end.

(** *** The destructor (lines 132-144) *)

Inductive Teardown : Type :=
| TdImplOpenGL3Shutdown
| TdImplGlfwShutdown
| TdDestroyContext
| TdDestroyWindow
| TdGlfwTerminate
| TdSettingsStore
| TdDeleteView (view : string)
| TdClearEntries
| TdPluginsUnload
| TdUnsubscribe (ev : Events).

Definition deinitImGui : list Teardown :=
  [TdImplOpenGL3Shutdown; TdImplGlfwShutdown; TdDestroyContext].

Definition deinitGLFW : list Teardown := [TdDestroyWindow; TdGlfwTerminate].

Definition deinitPlugins : list Teardown := [TdPluginsUnload].

(** The steps in order, the registry and the subscriptions as the
    destructor leaves them. *)
Definition Window_destroy (this : nat) (views : list View) (handlers : list EventHandler)
  : list Teardown * list View * list EventHandler :=
  (deinitImGui ++ deinitGLFW ++ [TdSettingsStore]
     ++ map (fun view => TdDeleteView (getName view)) views ++ [TdClearEntries]
     ++ deinitPlugins
     ++ [TdUnsubscribe SettingsChanged],
   [],
   unsubscribe SettingsChanged this handlers).

End Shell.

Arguments ImVec2 : clear implicits.
Arguments View : clear implicits.
Arguments Window : clear implicits.
Arguments Effect : clear implicits.
Arguments getWindowOpenState {scalar} view : simpl never.

(** ** The welcome screen ([Window::drawWelcomeScreen], lines 318-382) *)

(** What the welcome screen does, in order: the hyperlinks and buttons it
    draws, the events it posts, the pages it opens. *)
Inductive WelcomeFx : Type :=
| WfHyperlink (label : string)
| WfButton (label : string)
| WfPost (ev : Events) (payload : string)
| WfOpenWebpage (url : string).

(** What ImGui answers while the screen is drawn: whether each table is
    begun, and which widget reports a click.  The fixed widgets are told
    apart by their label, the hyperlinks of the recent files by their
    position in the list. *)
Record WelcomeInput : Type := {
  beginTableLeft : bool;
  beginTableRight : bool;
  hyperlinkClicked : string -> bool;
  recentClicked : nat -> bool;
  buttonClicked : string -> bool
}.

Section WelcomeScreen.

(** [std::filesystem::path(path).filename().string()], a library function. *)
Context (filename : string -> string).

(** Lines 341-346: one hyperlink per recent file, until one is clicked. *)
Fixpoint recentHyperlinks (clicked : nat -> bool) (index : nat) (files : list string)
  : list WelcomeFx :=
  match files with
  | [] => []
  | path :: rest =>
      WfHyperlink (filename path) ::
        (if clicked index then [WfPost FileDropped path]
         else recentHyperlinks clicked (S index) rest)
  end.

(** [if (ImGui::BulletHyperlink(label)) action;] *)
Definition BulletHyperlink (inp : WelcomeInput) (label : string) (action : WelcomeFx)
  : list WelcomeFx :=
  WfHyperlink label :: (if hyperlinkClicked inp label then [action] else []).

(** [if (ImGui::DescriptionButton(label, ...)) action;] *)
Definition DescriptionButton (inp : WelcomeInput) (label : string) (action : WelcomeFx)
  : list WelcomeFx :=
  WfButton label :: (if buttonClicked inp label then [action] else []).

Definition drawWelcomeScreen (inp : WelcomeInput) (files : list string)
  : list WelcomeFx :=
  (if beginTableLeft inp then
     BulletHyperlink inp "Open File" (WfPost OpenWindow "Open File")
     ++ BulletHyperlink inp "Open Project" (WfPost OpenWindow "Open Project")
     ++ recentHyperlinks (recentClicked inp) 0 files
     ++ BulletHyperlink inp "GitHub Repository"
          (WfOpenWebpage "https://github.com/WerWolv/ImHex")
     ++ BulletHyperlink inp "Get help"
          (WfOpenWebpage "https://github.com/WerWolv/ImHex/discussions/categories/get-help")
   else [])
  ++ (if beginTableRight inp then
        DescriptionButton inp "Settings" (WfPost OpenWindow "Preferences")
        ++ DescriptionButton inp "Latest Release"
             (WfOpenWebpage "https://github.com/WerWolv/ImHex/releases/latest")
        ++ DescriptionButton inp "Pattern Language Documentation"
             (WfOpenWebpage "https://github.com/WerWolv/ImHex/wiki/Pattern-Language-Guide")
        ++ DescriptionButton inp "Plugins API"
             (WfOpenWebpage "https://github.com/WerWolv/ImHex/wiki/Plugins-Development-Guide")
      else []).

End WelcomeScreen.

(** * Vocabulary of the properties

    Predicates and functions the statements below are written with; none
    of them is part of the program. *)

(** The paths not seen before, in order of first occurrence. *)
Fixpoint first_occurrences (seen files : list string) : list string :=
  match files with
  | [] => []
  | file :: rest =>
      if existsb (String.eqb file) seen then first_occurrences seen rest
      else file :: first_occurrences (seen ++ [file]) rest
  end.

Definition init_returns (plugin : Plugin) : Prop := initializePlugin plugin = Returns.

(** Every element satisfying [P] stands before every element satisfying
    [Q]. *)
Definition precedes {A : Type} (P Q : A -> bool) (trace : list A) : Prop :=
  forall i j a b,
    nth_error trace i = Some a -> nth_error trace j = Some b ->
    P a = true -> Q b = true -> (i < j)%nat.

Definition none {A : Type} (P : A -> bool) (trace : list A) : Prop :=
  Forall (fun a => P a = false) trace.

Definition no_press (events : list KeyEvent) : Prop :=
  Forall (fun ev => ev_action ev <> GLFW_PRESS) events.

(** The literal part of a format (white space and ordinary characters, no
    conversion): what is left of the input when all of it matches. *)
Fixpoint match_literal (input literal : list ascii) : option (list ascii) :=
  match literal with
  | [] => Some input
  | c :: literal' =>
      if isspace c then match_literal (skip_space input) literal'
      else
        match input with
        | i :: input' => if Ascii.eqb c i then match_literal input' literal' else None
        | [] => None
        end
  end.

(** A text with its white space removed: what a format that contains white
    space cannot tell apart. *)
Definition strip_space (s : list ascii) : list ascii :=
  filter (fun c => negb (isspace c)) s.

(** Characters a view name can hold without changing how its format or its
    entry is read: no conversion sign, no separator, no NUL, no line feed. *)
Definition plain_char (c : ascii) : bool :=
  (negb (Ascii.eqb c "%") && negb (Ascii.eqb c "=") && negb (Ascii.eqb c zero)
   && negb (Ascii.eqb c line_feed))%char.

Definition plain (s : string) : Prop := forallb plain_char (chars s) = true.

(** The text of a list of lines, each ended by a line feed. *)
Definition lines_text (lines : list string) : string :=
  fold_right (fun line rest => (line ++ LF ++ rest)%string) EmptyString lines.

(** The lines of a text: what stands before each of its line feeds, and
    what is left behind the last one if anything is.  [line] is the part of
    the current line already passed. *)
Fixpoint text_lines_from (line text : list ascii) : list (list ascii) :=
  match text with
  | [] => match line with [] => [] | _ :: _ => [line] end
  | c :: rest =>
      if Ascii.eqb c line_feed then line :: text_lines_from [] rest
      else text_lines_from (line ++ [c]) rest
  end.

Definition text_lines (text : string) : list string :=
  map string_of_list_ascii (text_lines_from [] (chars text)).

Definition isViewTeardown (t : Teardown) : bool :=
  match t with TdDeleteView _ | TdClearEntries => true | _ => false end.

Definition isBackendTeardown (t : Teardown) : bool :=
  match t with
  | TdImplOpenGL3Shutdown | TdImplGlfwShutdown | TdDestroyContext
  | TdDestroyWindow | TdGlfwTerminate => true
  | _ => false
  end.

Definition isSettingsStore (t : Teardown) : bool :=
  match t with TdSettingsStore => true | _ => false end.

Definition isPluginsUnload (t : Teardown) : bool :=
  match t with TdPluginsUnload => true | _ => false end.

Definition isUnsubscribe (t : Teardown) : bool :=
  match t with TdUnsubscribe _ => true | _ => false end.

Section Vocabulary.

Context {scalar : Type} (scalar_mul : scalar -> scalar -> scalar).

Abbreviation View := (View scalar).
Abbreviation Effect := (Effect scalar).

(** The effects by the step of the frame that produces them. *)
Definition isShortcutFx (e : Effect) : bool :=
  match e with FxHandleShortcut _ _ _ => true | _ => false end.

Definition isDeferredFx (e : Effect) : bool :=
  match e with FxDeferredCall _ => true | _ => false end.

Definition isDrawFx (e : Effect) : bool :=
  match e with FxDrawContent _ _ _ => true | _ => false end.

Definition isWelcomeFx (e : Effect) : bool :=
  match e with FxWelcomeScreen => true | _ => false end.

Definition isMenuFx (e : Effect) : bool :=
  match e with FxMenuItem _ | FxDrawMenu _ => true | _ => false end.

(** The effects [frameBegin] can have. *)
Definition isBeginFx (e : Effect) : bool :=
  match e with
  | FxPollEvents | FxMenuItem _ | FxDrawMenu _ | FxHandleShortcut _ _ _
  | FxWelcomeScreen => true
  | _ => false
  end.

(** The effects of the loop body after the deferred calls. *)
Definition isLateFx (e : Effect) : bool :=
  match e with
  | FxDrawContent _ _ _ | FxDrawCommonInterfaces | FxFrameEnd => true
  | _ => false
  end.

(** [SetNextWindowSizeConstraints] and [drawContent] for one view. *)
Definition drawContent (scale : scalar) (view : View) : Effect :=
  FxDrawContent (getName view)
    {| vec_x := scalar_mul (vec_x (getMinSize view)) scale;
       vec_y := scalar_mul (vec_y (getMinSize view)) scale |}
    (getMaxSize view).


Definition open_and_available (view : View) : bool :=
  getWindowOpenState view && isAvailable view.

Definition destroy_steps (this : nat) (views : list View) (handlers : list EventHandler)
  : list Teardown :=
  fst (fst (Window_destroy this views handlers)).

Definition stripped_name (view : View) : list ascii :=
  strip_space (chars (getName view)).

(** Names the handler can tell apart: plain, and different even with their
    white space removed. *)
Definition settings_safe (views : list View) : Prop :=
  Forall (fun view => plain (getName view)) views
  /\ NoDup (map stripped_name views).

(** The views of [current] with the flags of [written], position by
    position. *)
Definition restore (current written : list View) : list View :=
  map (fun p => storeWindowOpenState (fst p) (windowOpenState (snd p)))
      (combine current written).

(** What reading the entry of [written] does to a view, when the names can
    be told apart: a view of that name takes its flag. *)
Definition read_entry (written view : View) : View :=
  if String.eqb (getName view) (getName written)
  then storeWindowOpenState view (windowOpenState written)
  else view.

End Vocabulary.

(** ** Further vocabulary *)

Definition isFileDroppedFx (fx : WelcomeFx) : bool :=
  match fx with WfPost FileDropped _ => true | _ => false end.

(** The hyperlink of a recent file: its label is the file name. *)
Definition recent_link (filename : string -> string) (path : string) : WelcomeFx :=
  WfHyperlink (filename path).

Section FurtherVocabulary.

Context {scalar : Type}.

Abbreviation View := (View scalar).
Abbreviation Effect := (Effect scalar).

Definition isDrawMenuFx (e : Effect) : bool :=
  match e with FxDrawMenu _ => true | _ => false end.

(** The view has a menu item, the menus are drawn and its item is clicked. *)
Definition toggled (inp : FrameInput) (view : View) : bool :=
  beginDockSpace inp && beginMenuBar inp && beginViewMenu inp
  && hasViewMenuItemEntry view
  && menuItemClicked inp (getName view ++ " View")%string.

Definition toggle (inp : FrameInput) (view : View) : View :=
  if toggled inp view
  then setWindowOpenState view (negb (getWindowOpenState view))
  else view.

End FurtherVocabulary.

(** ** Instances used by the examples *)

Definition size (x y : Z) : ImVec2 Z := {| vec_x := x; vec_y := y |}.

(** A view with a menu entry whose shortcut handler always gives the same
    answer. *)
Definition a_view (name : string) (open available handles : bool) : View Z :=
  {| getName := name;
     windowOpenState := if open then Byte.x01 else Byte.x00;
     isAvailable := available;
     hasViewMenuItemEntry := true;
     getMinSize := size 480 120;
     getMaxSize := size 4000 4000;
     handleShortcut := fun _ _ => handles |}.

Definition idle_io : ImGuiIO :=
  {| KeysDown := fun _ => false; KeyCtrl := false; KeyShift := false; KeyAlt := false |}.

(** A frame in which every window is begun, nothing is clicked and the
    given key events arrive. *)
Definition a_frame (events : list KeyEvent) : FrameInput :=
  {| windowShouldClose := false;
     keyEvents := events;
     beginDockSpace := true;
     beginMenuBar := true;
     beginViewMenu := false;
     menuItemClicked := fun _ => false;
     beginWelcomeWindow := true;
     beginWelcomeChild := true |}.

Definition press (key mods : Z) : KeyEvent :=
  {| ev_key := key; ev_scancode := 0%Z; ev_action := GLFW_PRESS; ev_mods := mods |}.

Definition a_window (views : list (View Z)) (calls : list Call) (shortcut : Z * Z)
  : Window Z :=
  {| entries := views; deferedCalls := calls; s_currShortcut := shortcut;
     io := idle_io; m_globalScale := 2%Z |}.

(** A frame in which nothing is clicked and no key arrives, with the given
    answers of [ImGui::Begin] for the dock space window and for the welcome
    window, and of [ImGui::BeginChild] for the child of the latter. *)
Definition a_frame_begun (dockSpace welcomeWindow welcomeChild : bool) : FrameInput :=
  {| windowShouldClose := false;
     keyEvents := [];
     beginDockSpace := dockSpace;
     beginMenuBar := true;
     beginViewMenu := false;
     menuItemClicked := fun _ => false;
     beginWelcomeWindow := welcomeWindow;
     beginWelcomeChild := welcomeChild |}.

(** A frame whose dock space window is not begun. *)
Definition an_undocked_frame (events : list KeyEvent) : FrameInput :=
  {| windowShouldClose := false;
     keyEvents := events;
     beginDockSpace := false;
     beginMenuBar := true;
     beginViewMenu := true;
     menuItemClicked := fun _ => true;
     beginWelcomeWindow := true;
     beginWelcomeChild := true |}.

(** The answer of [glfwWindowShouldClose] once the window is to close. *)
Definition a_closing_frame : FrameInput :=
  {| windowShouldClose := true;
     keyEvents := [];
     beginDockSpace := true;
     beginMenuBar := true;
     beginViewMenu := false;
     menuItemClicked := fun _ => false;
     beginWelcomeWindow := true;
     beginWelcomeChild := true |}.

(** A welcome screen with both tables begun on which the recent file at
    position [n] is clicked, and nothing else. *)
Definition a_welcome_click (n : nat) : WelcomeInput :=
  {| beginTableLeft := true;
     beginTableRight := true;
     hyperlinkClicked := fun _ => false;
     recentClicked := Nat.eqb n;
     buttonClicked := fun _ => false |}.

(** * Properties *)

(** ** The recent-files list *)

Lemma exists_in_acc (file : string) (uniques : list string) (acc : bool) :
  fold_left (fun exists_ unique => if String.eqb file unique then true else exists_)
            uniques acc
  = acc || existsb (String.eqb file) uniques.
Proof.
  revert acc. induction uniques as [|u uniques IH]; intro acc; simpl.
  - now rewrite orb_false_r.
  - rewrite IH. destruct (String.eqb file u), acc; reflexivity.
Qed.

Lemma exists_in_true (file : string) (uniques : list string) :
  exists_in file uniques = true <-> In file uniques.
Proof.
  unfold exists_in. rewrite exists_in_acc. simpl. rewrite existsb_exists. split.
  - intros [u [Hin Heq]]. apply String.eqb_eq in Heq. now subst.
  - intro Hin. exists file. split; [assumption | apply String.eqb_refl].
Qed.

Lemma exists_in_false (file : string) (uniques : list string) :
  exists_in file uniques = false <-> ~ In file uniques.
Proof.
  rewrite <- exists_in_true. destruct (exists_in file uniques); split; congruence.
Qed.

Lemma collect_uniques_NoDup (files uniques : list string) :
  NoDup uniques -> NoDup (collect_uniques files uniques).
Proof.
  revert uniques. induction files as [|file rest IH]; intros uniques Hnd; simpl.
  - assumption.
  - destruct (exists_in file uniques) eqn:Hex.
    + destruct (5 <? List.length uniques)%nat; [assumption | now apply IH].
    + assert (Hnd' : NoDup (uniques ++ [file])).
      { apply NoDup_app.
        - assumption.
        - constructor; [intros [] | constructor].
        - intros a Ha [Hb | []]. subst a.
          now apply exists_in_false in Hex. }
      destruct (5 <? List.length (uniques ++ [file]))%nat; [assumption | now apply IH].
Qed.

Lemma collect_uniques_length (files uniques : list string) :
  (List.length uniques <= 5)%nat ->
  (List.length (collect_uniques files uniques) <= 6)%nat.
Proof.
  revert uniques. induction files as [|file rest IH]; intros uniques Hlen; simpl.
  - lia.
  - destruct (exists_in file uniques).
    + destruct (5 <? List.length uniques)%nat eqn:Hcmp.
      * lia.
      * now apply IH.
    + destruct (5 <? List.length (uniques ++ [file]))%nat eqn:Hcmp.
      * rewrite length_app. simpl. lia.
      * apply IH. apply Nat.ltb_ge in Hcmp. exact Hcmp.
Qed.

Lemma exists_in_existsb (file : string) (uniques : list string) :
  exists_in file uniques = existsb (String.eqb file) uniques.
Proof. unfold exists_in. now rewrite exists_in_acc. Qed.

Lemma collect_uniques_firstn (files uniques : list string) :
  (List.length uniques <= 5)%nat ->
  collect_uniques files uniques
  = firstn 6 (uniques ++ first_occurrences uniques files).
Proof.
  revert uniques. induction files as [|file rest IH]; intros uniques Hlen;
    cbn [collect_uniques first_occurrences].
  - rewrite app_nil_r. symmetry. apply firstn_all2. lia.
  - rewrite exists_in_existsb.
    destruct (existsb (String.eqb file) uniques).
    + destruct (5 <? List.length uniques)%nat eqn:Hcmp.
      * apply Nat.ltb_lt in Hcmp. lia.
      * now apply IH.
    + destruct (5 <? List.length (uniques ++ [file]))%nat eqn:Hcmp.
      * apply Nat.ltb_lt in Hcmp. rewrite length_app in Hcmp. simpl in Hcmp.
        assert (Hfive : List.length uniques = 5%nat) by lia.
        change (file :: first_occurrences (uniques ++ [file]) rest)
          with ([file] ++ first_occurrences (uniques ++ [file]) rest).
        rewrite app_assoc.
        rewrite firstn_app.
        rewrite length_app, Hfive. cbn [List.length].
        replace (6 - (5 + 1))%nat with 0%nat by lia.
        rewrite firstn_O, app_nil_r.
        symmetry. apply firstn_all2. rewrite length_app, Hfive. cbn [List.length]. lia.
      * apply Nat.ltb_ge in Hcmp. rewrite (IH (uniques ++ [file]) Hcmp).
        rewrite <- app_assoc. reflexivity.
Qed.

Lemma onFileLoaded_files (path : string) (st : RecentFiles) :
  m_recentFiles (onFileLoaded path st)
  = firstn 6 (path :: first_occurrences [path] (m_recentFiles st)).
Proof.
  unfold onFileLoaded. cbn [m_recentFiles].
  rewrite collect_uniques_firstn by (cbn [List.length]; lia).
  reflexivity.
Qed.

Lemma onFileLoaded_facts (path : string) (st : RecentFiles) :
  let files := m_recentFiles (onFileLoaded path st) in
  NoDup files
  /\ (List.length files <= 6)%nat
  /\ files = firstn 6 (path :: first_occurrences [path] (m_recentFiles st))
  /\ settings_RecentFiles (onFileLoaded path st) = files.
Proof.
  cbv zeta. repeat split.
  - unfold onFileLoaded. cbn [m_recentFiles].
    apply collect_uniques_NoDup. constructor.
  - unfold onFileLoaded. cbn [m_recentFiles].
    apply collect_uniques_length. cbn [List.length]. lia.
  - apply onFileLoaded_files.
Qed.

(** One [FileLoaded] event puts the loaded path in front, keeps the paths
    the list held behind it in their old order, each once, cuts the result
    after six entries, and writes the same list to the settings. *)
Theorem onFileLoaded_most_recent_first (path : string) (st : RecentFiles) :
  m_recentFiles (onFileLoaded path st)
  = firstn 6 (path :: first_occurrences [path] (m_recentFiles st))
  /\ settings_RecentFiles (onFileLoaded path st) = m_recentFiles (onFileLoaded path st).
Proof.
  destruct (onFileLoaded_facts path st) as (_ & _ & Hfiles & Hstored).
  now split.
Qed.

(** After any sequence of [FileLoaded] events that is not empty, and
    whatever the list held before, the list has no path twice, at most six
    entries, and the path loaded last in front. *)
Theorem postFileLoaded_invariant (paths : list string) (path : string) (st : RecentFiles) :
  let files := m_recentFiles (postFileLoaded (paths ++ [path]) st) in
  NoDup files /\ (List.length files <= 6)%nat /\ hd_error files = Some path.
Proof.
  cbv zeta. unfold postFileLoaded. rewrite fold_left_app. cbn [fold_left].
  set (st' := fold_left _ paths st).
  destruct (onFileLoaded_facts path st') as (Hnd & Hlen & Hfiles & _).
  repeat split; try assumption.
  rewrite Hfiles. reflexivity.
Qed.

(** The example of the specification: "a", "b", "c", "a". *)
Example postFileLoaded_abca :
  m_recentFiles (postFileLoaded ["a"; "b"; "c"; "a"] (startup [])) = ["a"; "c"; "b"].
Proof. reflexivity. Qed.

(** C1 (the bound of five fails): six different files loaded one after the
    other into an empty list are all kept.  The loop stops once [uniques]
    holds more than five entries, that is with six. *)
Theorem postFileLoaded_six_entries :
  m_recentFiles (postFileLoaded ["a"; "b"; "c"; "d"; "e"; "f"] (startup []))
  = ["f"; "e"; "d"; "c"; "b"; "a"]
  /\ List.length (m_recentFiles
                    (postFileLoaded ["a"; "b"; "c"; "d"; "e"; "f"] (startup [])))
     = 6%nat.
Proof. split; reflexivity. Qed.

Lemma loadRecentFiles_push_back (stored files : list string) :
  fold_left (fun files path => files ++ [path]) stored files = files ++ stored.
Proof.
  revert files. induction stored as [|path stored IH]; intro files; simpl.
  - now rewrite app_nil_r.
  - rewrite IH, <- app_assoc. reflexivity.
Qed.

(** C6 as stated fails: the six paths the subscriber stored after six
    [FileLoaded] events are all loaded at the next start. *)
Lemma loadRecentFiles_more_than_five :
  let stored :=
    settings_RecentFiles
      (postFileLoaded ["a"; "b"; "c"; "d"; "e"; "f"] (startup [])) in
  stored = ["f"; "e"; "d"; "c"; "b"; "a"]
  /\ m_recentFiles (loadRecentFiles (startup stored))
     = ["f"; "e"; "d"; "c"; "b"; "a"]
  /\ (5 < List.length (m_recentFiles (loadRecentFiles (startup stored))))%nat.
Proof. cbv zeta. split; [reflexivity | split; [reflexivity | cbn; lia]]. Qed.

(** C6, amended: loading at startup fills the list with the stored sequence
    in its stored order and keeps every entry, however many there are; the
    stored value itself is left as it was. *)
Theorem loadRecentFiles_keeps_all (stored : list string) :
  m_recentFiles (loadRecentFiles (startup stored)) = stored
  /\ List.length (m_recentFiles (loadRecentFiles (startup stored))) = List.length stored
  /\ settings_RecentFiles (loadRecentFiles (startup stored)) = stored.
Proof.
  unfold loadRecentFiles, startup. cbn [m_recentFiles settings_RecentFiles].
  rewrite loadRecentFiles_push_back. cbn [app]. repeat split.
Qed.

(** ** Deferred calls *)

Lemma run_calls_tags (range queue : list Call) :
  fst (run_calls range queue) = map call_tag range.
Proof.
  revert queue. induction range as [|call rest IH]; intro queue; simpl.
  - reflexivity.
  - specialize (IH (queue ++ call_doLater call)).
    destruct (run_calls rest (queue ++ call_doLater call)) as [tags queue'].
    simpl in *. now rewrite IH.
Qed.

Lemma run_calls_queue (range queue : list Call) :
  snd (run_calls range queue) = queue ++ flat_map call_doLater range.
Proof.
  revert queue. induction range as [|call rest IH]; intro queue; simpl.
  - now rewrite app_nil_r.
  - specialize (IH (queue ++ call_doLater call)).
    destruct (run_calls rest (queue ++ call_doLater call)) as [tags queue'].
    simpl in *. now rewrite IH, <- app_assoc.
Qed.

Lemma drainDeferedCalls_eq (queue : list Call) :
  drainDeferedCalls queue = (map call_tag queue, []).
Proof.
  unfold drainDeferedCalls.
  pose proof (run_calls_tags queue queue) as Htags.
  destruct (run_calls queue queue) as [tags queue']. simpl in Htags.
  now rewrite Htags.
Qed.

(** When none of the queued calls defers a call, the drain runs the queued
    calls in queue order, each once, and leaves the queue empty; the queue
    is not touched while the loop over it runs, and a container whose
    iteration reaches appended elements runs the same calls. *)
Theorem drainDeferedCalls_fifo (queue : list Call) :
  Forall (fun call => call_doLater call = []) queue ->
  drainDeferedCalls queue = (map call_tag queue, [])
  /\ snd (run_calls queue queue) = queue
  /\ run_calls_reaching_appended (List.length queue) queue = Some (map call_tag queue).
Proof.
  intro Hquiet. split; [apply drainDeferedCalls_eq | split].
  - rewrite run_calls_queue.
    rewrite <- (app_nil_r queue) at 3. f_equal.
    induction Hquiet as [|call rest Hcall _ IH]; [reflexivity |].
    cbn [flat_map]. now rewrite Hcall, IH.
  - induction Hquiet as [|call rest Hcall _ IH]; [reflexivity |].
    cbn [List.length run_calls_reaching_appended map].
    now rewrite Hcall, app_nil_r, IH.
Qed.

Lemma drainDeferedCalls_fifo_witness :
  drainDeferedCalls [MkCall 1 []; MkCall 2 []; MkCall 1 []] = ([1; 2; 1]%nat, [])
  /\ snd (run_calls [MkCall 1 []; MkCall 2 []; MkCall 1 []]
                    [MkCall 1 []; MkCall 2 []; MkCall 1 []])
     = [MkCall 1 []; MkCall 2 []; MkCall 1 []]
  /\ run_calls_reaching_appended 3 [MkCall 1 []; MkCall 2 []; MkCall 1 []]
     = Some [1; 2; 1]%nat.
Proof.
  apply (drainDeferedCalls_fifo [MkCall 1 []; MkCall 2 []; MkCall 1 []]).
  repeat constructor.
Defined.

(** C2 (the re-entrant part fails): call 1 defers call 2 while the queue is
    drained.  Call 2 is in the queue when the loop ends and [clear()] removes
    it: the next drain runs nothing.  With a container whose iteration
    reaches appended elements, call 2 runs in the same drain instead. *)
Theorem deferred_during_drain_is_lost :
  let call1 := MkCall 1 [MkCall 2 []] in
  run_calls [call1] [call1] = ([1%nat], [call1; MkCall 2 []])
  /\ drainDeferedCalls [call1] = ([1%nat], [])
  /\ drainDeferedCalls (snd (drainDeferedCalls [call1])) = ([], [])
  /\ run_calls_reaching_appended 2 [call1] = Some [1%nat; 2%nat].
Proof. cbv zeta. repeat split. Qed.

(** ** Plugins *)

Lemma initialize_plugins_all_return (plugins : list Plugin) :
  Forall init_returns plugins ->
  initialize_plugins plugins = (map plugin_name plugins, Returns).
Proof.
  induction 1 as [|plugin rest Hret _ IH]; simpl.
  - reflexivity.
  - unfold init_returns in Hret. now rewrite Hret, IH.
Qed.

Lemma initialize_plugins_first_throw (before after : list Plugin) (plugin : Plugin)
  (e : Exception) :
  Forall init_returns before ->
  initializePlugin plugin = Throws e ->
  initialize_plugins (before ++ plugin :: after)
  = (map plugin_name before ++ [plugin_name plugin], Throws e).
Proof.
  intros Hbefore Hthrow. induction Hbefore as [|p rest Hret _ IH]; simpl.
  - now rewrite Hthrow.
  - unfold init_returns in Hret. now rewrite Hret, IH.
Qed.

Lemma initPlugins_missing_directory (load : LoadResult) :
  reports_missing_directory load = true -> initPlugins load = ([], Returns).
Proof.
  destruct load as [[|p ps] | [ | ]]; simpl; intro H; try discriminate; reflexivity.
Qed.

(** C4 as stated fails: of three plugins whose second entry point throws,
    the third is never initialized, and the exception leaves
    [initPlugins]. *)
Lemma initPlugins_stops_at_failing_plugin :
  let A := {| plugin_name := "A"; initializePlugin := Returns |} in
  let B := {| plugin_name := "B"; initializePlugin := Throws other_exception |} in
  let C := {| plugin_name := "C"; initializePlugin := Returns |} in
  initPlugins (Loaded [A; B; C]) = (["A"; "B"], Throws other_exception)
  /\ ~ In "C" (fst (initPlugins (Loaded [A; B; C]))).
Proof.
  cbv zeta. split; [reflexivity |].
  simpl. intros [H | [H | []]]; discriminate.
Qed.

(** C4, amended: a missing plugin directory (reported by [load] as an empty
    set or as a [std::runtime_error]) runs no entry point and [initPlugins]
    returns normally; when every entry point returns, each loaded plugin is
    initialized once, in order; an entry point that throws ends the loop:
    the plugins before it and the plugin itself were called once, those
    after it are not called, and the exception leaves [initPlugins]. *)
Theorem initPlugins_cases :
  (forall load, reports_missing_directory load = true ->
                initPlugins load = ([], Returns))
  /\ (forall plugins, Forall init_returns plugins ->
                      initPlugins (Loaded plugins) = (map plugin_name plugins, Returns))
  /\ (forall before plugin after e,
        Forall init_returns before ->
        initializePlugin plugin = Throws e ->
        initPlugins (Loaded (before ++ plugin :: after))
        = (map plugin_name before ++ [plugin_name plugin], Throws e)).
Proof.
  split; [| split].
  - exact initPlugins_missing_directory.
  - intros plugins Hall. simpl. now apply initialize_plugins_all_return.
  - intros before plugin after e Hbefore Hthrow. simpl.
    now apply initialize_plugins_first_throw.
Qed.

Lemma initPlugins_cases_witness :
  let A := {| plugin_name := "A"; initializePlugin := Returns |} in
  let B := {| plugin_name := "B"; initializePlugin := Throws runtime_error |} in
  let C := {| plugin_name := "C"; initializePlugin := Returns |} in
  initPlugins (LoadThrows runtime_error) = ([], Returns)
  /\ initPlugins (Loaded [A; C]) = (["A"; "C"], Returns)
  /\ initPlugins (Loaded ([A] ++ B :: [C])) = (["A"; "B"], Throws runtime_error).
Proof.
  cbv zeta. split; [| split].
  - apply (proj1 initPlugins_cases). reflexivity.
  - apply (proj1 (proj2 initPlugins_cases)
             [ {| plugin_name := "A"; initializePlugin := Returns |};
               {| plugin_name := "C"; initializePlugin := Returns |} ]).
    repeat constructor.
  - apply (proj2 (proj2 initPlugins_cases)
             [ {| plugin_name := "A"; initializePlugin := Returns |} ]
             {| plugin_name := "B"; initializePlugin := Throws runtime_error |}
             [ {| plugin_name := "C"; initializePlugin := Returns |} ]
             runtime_error).
    + repeat constructor.
    + reflexivity.
Defined.

(** ** Order within a trace *)

Lemma none_nth_error {A : Type} (P : A -> bool) (trace : list A) (i : nat) (a : A) :
  none P trace -> nth_error trace i = Some a -> P a = false.
Proof.
  intros Hnone Hnth. unfold none in Hnone. rewrite Forall_forall in Hnone.
  apply Hnone. eapply nth_error_In; eassumption.
Qed.

Lemma none_app {A : Type} (P : A -> bool) (l1 l2 : list A) :
  none P l1 -> none P l2 -> none P (l1 ++ l2).
Proof. unfold none. intros. now apply Forall_app. Qed.

Lemma precedes_app {A : Type} (P Q : A -> bool) (l1 l2 : list A) :
  none Q l1 -> none P l2 -> precedes P Q (l1 ++ l2).
Proof.
  intros HQ HP i j a b Hi Hj Pa Qb.
  destruct (Nat.lt_ge_cases j (List.length l1)) as [Hj1 | Hj2].
  - rewrite nth_error_app1 in Hj by assumption.
    rewrite (none_nth_error Q l1 j b HQ Hj) in Qb. discriminate.
  - destruct (Nat.lt_ge_cases i (List.length l1)) as [Hi1 | Hi2].
    + lia.
    + rewrite nth_error_app2 in Hi by assumption.
      rewrite (none_nth_error P l2 _ a HP Hi) in Pa. discriminate.
Qed.

Lemma filter_none {A : Type} (P : A -> bool) (l : list A) :
  none P l -> filter P l = [].
Proof.
  induction 1 as [|a l Ha _ IH]; simpl; [reflexivity | now rewrite Ha].
Qed.

Lemma filter_all {A : Type} (P : A -> bool) (l : list A) :
  Forall (fun a => P a = true) l -> filter P l = l.
Proof.
  induction 1 as [|a l Ha _ IH]; simpl; [reflexivity | now rewrite Ha, IH].
Qed.

Lemma none_weaken {A : Type} (P Q : A -> bool) (l : list A) :
  (forall a, P a = true -> Q a = false) ->
  Forall (fun a => P a = true) l -> none Q l.
Proof.
  intros HPQ Hall. unfold none. eapply Forall_impl; [| exact Hall].
  exact HPQ.
Qed.

(** ** The frame *)

Section ShellProperties.

Context {scalar : Type} (scalar_mul : scalar -> scalar -> scalar).

Abbreviation View := (View scalar).
Abbreviation Effect := (Effect scalar).
Abbreviation Window := (Window scalar).

Lemma viewMenuItems_fx (clicked : string -> bool) (views : list View) :
  Forall (fun e => isMenuFx e = true) (fst (viewMenuItems clicked views)).
Proof.
  induction views as [|view rest IH]; simpl.
  - constructor.
  - destruct (viewMenuItems clicked rest) as [fx rest']. simpl in IH.
    destruct (hasViewMenuItemEntry view); simpl.
    + constructor; [reflexivity | assumption].
    + assumption.
Qed.

Lemma menuBar_fx (inp : FrameInput) (views : list View) :
  Forall (fun e => isMenuFx e = true) (fst (menuBar inp views)).
Proof.
  unfold menuBar. destruct (beginMenuBar inp); [| constructor].
  pose proof (viewMenuItems_fx (menuItemClicked inp) views) as Hitems.
  destruct (beginViewMenu inp).
  - destruct (viewMenuItems (menuItemClicked inp) views) as [items views'].
    simpl in *. apply Forall_app. split; [assumption |].
    apply Forall_map. apply Forall_forall. reflexivity.
  - simpl. apply Forall_map. apply Forall_forall. reflexivity.
Qed.

Lemma offerShortcut_fx (views : list View) (key mods : Z) :
  Forall (fun e => isShortcutFx e = true) (offerShortcut views key mods).
Proof.
  induction views as [|view rest IH]; simpl.
  - constructor.
  - destruct (getWindowOpenState view); [| assumption].
    constructor; [reflexivity |].
    destruct (handleShortcut view key mods); [constructor | assumption].
Qed.

Lemma dispatchShortcut_fx (views : list View) (shortcut : Z * Z) :
  Forall (fun e => isShortcutFx e = true) (fst (dispatchShortcut views shortcut)).
Proof.
  unfold dispatchShortcut. destruct shortcut as [key mods].
  destruct (negb (key =? -1)%Z); simpl; [apply offerShortcut_fx | constructor].
Qed.

Lemma welcome_fx (inp : FrameInput) (views : list View) :
  Forall (fun e => isWelcomeFx e = true) (welcome inp views).
Proof.
  unfold welcome.
  destruct (negb (anyViewOpen views)), (beginWelcomeWindow inp), (beginWelcomeChild inp);
    repeat constructor.
Qed.

(** [frameBegin] when the dock space window is begun. *)
Lemma frameBegin_docked (inp : FrameInput) (w : Window) :
  beginDockSpace inp = true ->
  frameBegin inp w
  = let st := glfwPollEvents (keyEvents inp) (s_currShortcut w, io w) in
    let menu := menuBar inp (entries w) in
    let dispatch := dispatchShortcut (snd menu) (fst st) in
    (FxPollEvents :: fst menu ++ fst dispatch ++ welcome inp (snd menu),
     {| entries := snd menu; deferedCalls := deferedCalls w;
        s_currShortcut := snd dispatch; io := snd st;
        m_globalScale := m_globalScale w |}).
Proof.
  intro Hdock. unfold frameBegin. cbv zeta.
  destruct (glfwPollEvents (keyEvents inp) (s_currShortcut w, io w)) as [shortcut io'].
  rewrite Hdock.
  destruct (menuBar inp (entries w)) as [menuFx views].
  cbn [fst snd].
  destruct (dispatchShortcut views shortcut) as [shortcutFx shortcut'].
  reflexivity.
Qed.

Lemma frameBegin_undocked (inp : FrameInput) (w : Window) :
  beginDockSpace inp = false ->
  frameBegin inp w
  = let st := glfwPollEvents (keyEvents inp) (s_currShortcut w, io w) in
    ([FxPollEvents],
     {| entries := entries w; deferedCalls := deferedCalls w;
        s_currShortcut := fst st; io := snd st;
        m_globalScale := m_globalScale w |}).
Proof.
  intro Hdock. unfold frameBegin. cbv zeta.
  destruct (glfwPollEvents (keyEvents inp) (s_currShortcut w, io w)) as [shortcut io'].
  now rewrite Hdock.
Qed.

Lemma frameBegin_fx (inp : FrameInput) (w : Window) :
  Forall (fun e => isBeginFx e = true) (fst (frameBegin inp w)).
Proof.
  destruct (beginDockSpace inp) eqn:Hdock.
  - rewrite (frameBegin_docked inp w Hdock). cbv zeta. cbn [fst].
    constructor; [reflexivity |].
    repeat (apply Forall_app; split).
    + eapply Forall_impl; [| apply menuBar_fx].
      intros [] H; simpl in *; congruence.
    + eapply Forall_impl; [| apply dispatchShortcut_fx].
      intros [] H; simpl in *; congruence.
    + eapply Forall_impl; [| apply welcome_fx].
      intros [] H; simpl in *; congruence.
  - rewrite (frameBegin_undocked inp w Hdock). cbv zeta. cbn [fst].
    repeat constructor.
Qed.

Lemma frameBegin_deferedCalls (inp : FrameInput) (w : Window) :
  deferedCalls (snd (frameBegin inp w)) = deferedCalls w
  /\ m_globalScale (snd (frameBegin inp w)) = m_globalScale w.
Proof.
  destruct (beginDockSpace inp) eqn:Hdock.
  - rewrite (frameBegin_docked inp w Hdock). split; reflexivity.
  - rewrite (frameBegin_undocked inp w Hdock). split; reflexivity.
Qed.

(** The draw pass is a map over the views that are available and open. *)
Lemma drawViews_filter (scale : scalar) (views : list View) :
  drawViews scalar_mul scale views
  = map (drawContent scalar_mul scale)
        (filter (fun view => isAvailable view && getWindowOpenState view) views).
Proof.
  induction views as [|view rest IH]; simpl.
  - reflexivity.
  - destruct (isAvailable view), (getWindowOpenState view); simpl;
      try assumption.
    now rewrite IH.
Qed.

Lemma drawViews_fx (scale : scalar) (views : list View) :
  Forall (fun e => isDrawFx e = true) (drawViews scalar_mul scale views).
Proof.
  rewrite drawViews_filter. apply Forall_map. apply Forall_forall. reflexivity.
Qed.

(** The trace of the loop body, step by step. *)
Lemma loop_body_trace (inp : FrameInput) (w : Window) :
  let w1 := snd (frameBegin inp w) in
  loop_body scalar_mul inp w
  = (fst (frameBegin inp w)
       ++ map FxDeferredCall (map call_tag (deferedCalls w))
       ++ drawViews scalar_mul (m_globalScale w) (entries w1)
       ++ [FxDrawCommonInterfaces; FxFrameEnd],
     {| entries := entries w1; deferedCalls := [];
        s_currShortcut := s_currShortcut w1; io := io w1;
        m_globalScale := m_globalScale w |}).
Proof.
  cbv zeta. unfold loop_body.
  destruct (frameBegin_deferedCalls inp w) as [Hcalls Hscale].
  destruct (frameBegin inp w) as [beginFx w1]. cbn [fst snd] in *.
  rewrite drainDeferedCalls_eq. cbn [entries m_globalScale].
  now rewrite Hcalls, Hscale.
Qed.

Lemma deferred_fx (tags : list nat) :
  Forall (fun e : Effect => isDeferredFx e = true) (map FxDeferredCall tags).
Proof. apply Forall_map. apply Forall_forall. reflexivity. Qed.

Lemma late_fx (scale : scalar) (views : list View) :
  Forall (fun e : Effect => isLateFx e = true)
         (drawViews scalar_mul scale views ++ [FxDrawCommonInterfaces; FxFrameEnd]).
Proof.
  apply Forall_app. split.
  - eapply Forall_impl; [| apply drawViews_fx].
    intros [] H; simpl in *; congruence.
  - repeat constructor.
Qed.

End ShellProperties.

Create HintDb fx.

#[local] Hint Resolve menuBar_fx dispatchShortcut_fx offerShortcut_fx welcome_fx
  frameBegin_fx drawViews_fx deferred_fx late_fx : fx.

(** No effect of the kind at hand is among effects that are all of the kind
    [kind]. *)
Tactic Notation "no_fx" uconstr(kind) :=
  apply (none_weaken kind);
  [ intros [] ?; simpl in *; congruence | auto with fx ].

Section FrameClaims.

Context {scalar : Type} (scalar_mul : scalar -> scalar -> scalar).

Abbreviation View := (View scalar).
Abbreviation Effect := (Effect scalar).
Abbreviation Window := (Window scalar).

Lemma loop_body_fst (inp : FrameInput) (w : Window) :
  fst (loop_body scalar_mul inp w)
  = fst (frameBegin inp w)
      ++ map FxDeferredCall (map call_tag (deferedCalls w))
      ++ drawViews scalar_mul (m_globalScale w) (entries (snd (frameBegin inp w)))
      ++ [FxDrawCommonInterfaces; FxFrameEnd].
Proof. now rewrite loop_body_trace. Qed.

Lemma loop_body_snd (inp : FrameInput) (w : Window) :
  entries (snd (loop_body scalar_mul inp w)) = entries (snd (frameBegin inp w))
  /\ s_currShortcut (snd (loop_body scalar_mul inp w))
     = s_currShortcut (snd (frameBegin inp w))
  /\ deferedCalls (snd (loop_body scalar_mul inp w)) = [].
Proof. rewrite loop_body_trace. repeat split. Qed.

(** C3, amended: in the trace of one frame every deferred call runs before
    every content draw, and every offer of the shortcut comes before both:
    the dispatch is part of [frameBegin], the first step of the frame. *)
Theorem loop_body_order (inp : FrameInput) (w : Window) :
  let trace := fst (loop_body scalar_mul inp w) in
  precedes isDeferredFx isDrawFx trace
  /\ precedes isShortcutFx isDeferredFx trace
  /\ precedes isShortcutFx isDrawFx trace.
Proof.
  cbv zeta. rewrite loop_body_fst.
  split; [| split].
  - rewrite app_assoc. apply precedes_app.
    + apply none_app.
      * no_fx isBeginFx.
      * no_fx isDeferredFx.
    + no_fx isLateFx.
  - apply precedes_app.
    + no_fx isBeginFx.
    + apply none_app.
      * no_fx isDeferredFx.
      * no_fx isLateFx.
  - apply precedes_app.
    + no_fx isBeginFx.
    + apply none_app.
      * no_fx isDeferredFx.
      * no_fx isLateFx.
Qed.

(** *** Shortcut dispatch *)



Lemma frameBegin_shortcutFx (inp : FrameInput) (w : Window) (key mods : Z) :
  beginDockSpace inp = true ->
  fst (glfwPollEvents (keyEvents inp) (s_currShortcut w, io w)) = (key, mods) ->
  key <> (-1)%Z ->
  filter isShortcutFx (fst (frameBegin inp w))
  = offerShortcut (entries (snd (frameBegin inp w))) key mods
  /\ s_currShortcut (snd (frameBegin inp w)) = no_shortcut.
Proof.
  intros Hdock Hpoll Hkey.
  rewrite (frameBegin_docked inp w Hdock). cbv zeta. cbn [fst snd entries s_currShortcut].
  rewrite Hpoll. unfold dispatchShortcut.
  apply Z.eqb_neq in Hkey. rewrite Hkey. cbn [negb fst snd]. split; [| reflexivity].
  cbn [filter isShortcutFx]. rewrite !filter_app.
  rewrite (filter_none isShortcutFx (fst (menuBar inp (entries w)))).
  2:{ no_fx isMenuFx. }
  rewrite (filter_none isShortcutFx (welcome inp _)).
  2:{ no_fx isWelcomeFx. }
  rewrite app_nil_r. cbn [app].
  apply filter_all. apply offerShortcut_fx.
Qed.


(** *** Draw pass and welcome screen *)

Lemma viewMenuItems_views (clicked : string -> bool) (views : list View) :
  snd (viewMenuItems clicked views)
  = map (fun view =>
           if hasViewMenuItemEntry view && clicked (getName view ++ " View")%string
           then setWindowOpenState view (negb (getWindowOpenState view))
           else view) views
  /\ filter isDrawMenuFx (fst (viewMenuItems clicked views)) = [].
Proof.
  induction views as [|view rest [IHviews IHfx]]; [now split |].
  cbn [viewMenuItems map].
  destruct (viewMenuItems clicked rest) as [fx rest']. cbn [fst snd] in *.
  destruct (hasViewMenuItemEntry view); cbn [andb fst snd filter isDrawMenuFx].
  - split; [| assumption]. now rewrite IHviews.
  - split; [| assumption]. now rewrite IHviews.
Qed.

Lemma toggle_name (inp : FrameInput) (view : View) :
  getName (toggle inp view) = getName view.
Proof. unfold toggle. now destruct (toggled inp view). Qed.

Lemma menuBar_views (inp : FrameInput) (views : list View) :
  beginDockSpace inp = true ->
  snd (menuBar inp views) = map (toggle inp) views.
Proof.
  intro Hdock. unfold menuBar, toggle, toggled. rewrite Hdock. cbn [andb].
  destruct (beginMenuBar inp); cbn [andb snd].
  - destruct (viewMenuItems_views (menuItemClicked inp) views) as [Hviews _].
    destruct (beginViewMenu inp); cbn [andb].
    + destruct (viewMenuItems (menuItemClicked inp) views) as [items views'].
      cbn [snd] in *. exact Hviews.
    + cbn [snd]. symmetry. apply map_id.
  - symmetry. apply map_id.
Qed.

Lemma frameBegin_entries (inp : FrameInput) (w : Window) :
  entries (snd (frameBegin inp w)) = map (toggle inp) (entries w).
Proof.
  destruct (beginDockSpace inp) eqn:Hdock.
  - rewrite (frameBegin_docked inp w Hdock). cbv zeta. cbn [snd entries].
    now apply menuBar_views.
  - rewrite (frameBegin_undocked inp w Hdock). cbv zeta. cbn [snd entries].
    rewrite <- (map_id (entries w)) at 1. apply map_ext. intro view.
    unfold toggle, toggled. now rewrite Hdock.
Qed.

Lemma anyViewOpen_acc (views : list View) (acc : bool) :
  fold_left (fun any view => any || (getWindowOpenState view && isAvailable view))
            views acc
  = acc || existsb open_and_available views.
Proof.
  revert acc. induction views as [|view rest IH]; intro acc; simpl.
  - now rewrite orb_false_r.
  - rewrite IH. unfold open_and_available. now rewrite orb_assoc.
Qed.

Lemma anyViewOpen_false (views : list View) :
  anyViewOpen views = false
  <-> forall view, In view views -> open_and_available view = false.
Proof.
  unfold anyViewOpen. rewrite anyViewOpen_acc. simpl. split.
  - intros Hex view Hin.
    destruct (open_and_available view) eqn:Hv; [| reflexivity].
    assert (Htrue : existsb open_and_available views = true).
    { apply existsb_exists. now exists view. }
    congruence.
  - intro Hall. destruct (existsb open_and_available views) eqn:Hex; [| reflexivity].
    apply existsb_exists in Hex. destruct Hex as [view [Hin Hv]].
    rewrite (Hall view Hin) in Hv. discriminate.
Qed.

Lemma welcome_In (inp : FrameInput) (views : list View) :
  In FxWelcomeScreen (welcome inp views)
  <-> beginWelcomeWindow inp = true /\ beginWelcomeChild inp = true
      /\ anyViewOpen views = false.
Proof.
  unfold welcome.
  destruct (anyViewOpen views), (beginWelcomeWindow inp), (beginWelcomeChild inp);
    simpl; intuition discriminate.
Qed.

Lemma In_none {A : Type} (P : A -> bool) (l : list A) (a : A) :
  none P l -> P a = true -> ~ In a l.
Proof.
  intros Hnone Ha Hin. unfold none in Hnone. rewrite Forall_forall in Hnone.
  rewrite (Hnone a Hin) in Ha. discriminate.
Qed.

Lemma frameBegin_welcome (inp : FrameInput) (w : Window) :
  In FxWelcomeScreen (fst (frameBegin inp w))
  <-> beginDockSpace inp = true
      /\ In FxWelcomeScreen (welcome inp (map (toggle inp) (entries w))).
Proof.
  destruct (beginDockSpace inp) eqn:Hdock.
  - rewrite <- (menuBar_views inp (entries w) Hdock).
    rewrite (frameBegin_docked inp w Hdock). cbv zeta. cbn [fst]. split.
    + intros [H | H]; [discriminate |]. split; [reflexivity |].
      apply in_app_or in H. destruct H as [H | H].
      * exfalso. revert H. apply (In_none isWelcomeFx); [| reflexivity].
        no_fx isMenuFx.
      * apply in_app_or in H. destruct H as [H | H]; [| assumption].
        exfalso. revert H. apply (In_none isWelcomeFx); [| reflexivity].
        no_fx isShortcutFx.
    + intros [_ H]. right. apply in_or_app. right. apply in_or_app. now right.
  - rewrite (frameBegin_undocked inp w Hdock). cbv zeta. cbn [fst]. split.
    + intros [H | []]. discriminate.
    + intros [H _]. discriminate.
Qed.

(** C8, amended: the draw pass of a frame calls the content hook of exactly
    the views of the registry that are available and open once the clicks of
    this frame on the view menu are applied, in registration order, each
    with its minimum size multiplied by the global scale; and the welcome
    screen is drawn in that frame if and only if the dock space window, the
    welcome window and its child window are begun and no view is both open
    and available. *)
Theorem draw_pass_and_welcome (inp : FrameInput) (w : Window) :
  let trace := fst (loop_body scalar_mul inp w) in
  let views := map (toggle inp) (entries w) in
  filter isDrawFx trace
  = map (drawContent scalar_mul (m_globalScale w))
        (filter (fun view => isAvailable view && getWindowOpenState view) views)
  /\ (In FxWelcomeScreen trace
      <-> beginDockSpace inp = true
          /\ beginWelcomeWindow inp = true
          /\ beginWelcomeChild inp = true
          /\ forall view, In view views -> open_and_available view = false).
Proof.
  cbv zeta. rewrite loop_body_fst, frameBegin_entries.
  split.
  - rewrite !filter_app.
    rewrite (filter_none isDrawFx (fst (frameBegin inp w))).
    2:{ no_fx isBeginFx. }
    rewrite (filter_none isDrawFx (map FxDeferredCall _)).
    2:{ no_fx isDeferredFx. }
    rewrite (filter_all isDrawFx (drawViews _ _ _)) by apply drawViews_fx.
    cbn [filter isDrawFx app]. rewrite app_nil_r. apply drawViews_filter.
  - rewrite <- anyViewOpen_false, <- welcome_In, <- frameBegin_welcome.
    split.
    + intro H. apply in_app_or in H. destruct H as [H | H]; [assumption |].
      exfalso. apply in_app_or in H. destruct H as [H | H].
      * revert H. apply (In_none isWelcomeFx); [| reflexivity].
        no_fx isDeferredFx.
      * revert H. apply (In_none isWelcomeFx); [| reflexivity].
        no_fx isLateFx.
    + intro H. apply in_or_app. now left.
Qed.

End FrameClaims.

(** ** The pending shortcut *)

Lemma keyCallback_press (ev : KeyEvent) (st : (Z * Z) * ImGuiIO) :
  ev_action ev = GLFW_PRESS ->
  fst (keyCallback ev st) = (ev_key ev, ev_mods ev).
Proof.
  intro Hpress. unfold keyCallback. destruct st as [shortcut io0].
  rewrite Hpress. reflexivity.
Qed.

Lemma keyCallback_other (ev : KeyEvent) (st : (Z * Z) * ImGuiIO) :
  ev_action ev <> GLFW_PRESS ->
  fst (keyCallback ev st) = fst st.
Proof.
  intro Hother. unfold keyCallback. destruct st as [shortcut io0].
  apply Z.eqb_neq in Hother. rewrite Hother.
  destruct (ev_action ev =? GLFW_RELEASE)%Z; reflexivity.
Qed.

Lemma glfwPollEvents_no_press (events : list KeyEvent) (st : (Z * Z) * ImGuiIO) :
  no_press events -> fst (glfwPollEvents events st) = fst st.
Proof.
  unfold glfwPollEvents. intro Hquiet. revert st.
  induction Hquiet as [|ev events Hev _ IH]; intro st; simpl.
  - reflexivity.
  - rewrite IH. now apply keyCallback_other.
Qed.

(** Of the key events of one poll, the last press is the one that stays. *)
Lemma glfwPollEvents_last_press (before after : list KeyEvent) (ev : KeyEvent)
  (st : (Z * Z) * ImGuiIO) :
  ev_action ev = GLFW_PRESS ->
  no_press after ->
  fst (glfwPollEvents (before ++ ev :: after) st) = (ev_key ev, ev_mods ev).
Proof.
  intros Hpress Hquiet. unfold glfwPollEvents. rewrite fold_left_app. simpl.
  fold (glfwPollEvents after (keyCallback ev (fold_left (fun st ev => keyCallback ev st) before st))).
  rewrite glfwPollEvents_no_press by assumption.
  now apply keyCallback_press.
Qed.

Section PendingShortcut.

Context {scalar : Type} (scalar_mul : scalar -> scalar -> scalar).

Abbreviation Window := (Window scalar).
Abbreviation Effect := (Effect scalar).

(** A frame that starts with no shortcut pending and polls no key press
    offers nothing, and ends with no shortcut pending. *)
Lemma frameBegin_idle (inp : FrameInput) (w : Window) :
  fst (s_currShortcut w) = (-1)%Z ->
  no_press (keyEvents inp) ->
  none isShortcutFx (fst (frameBegin inp w))
  /\ fst (s_currShortcut (snd (frameBegin inp w))) = (-1)%Z.
Proof.
  intros Hidle Hquiet.
  pose proof (glfwPollEvents_no_press (keyEvents inp) (s_currShortcut w, io w) Hquiet)
    as Hpoll.
  cbn [fst] in Hpoll.
  destruct (beginDockSpace inp) eqn:Hdock.
  - rewrite (frameBegin_docked inp w Hdock). cbv zeta.
    cbn [fst snd s_currShortcut]. rewrite Hpoll.
    unfold dispatchShortcut. destruct (s_currShortcut w) as [key mods].
    cbn [fst] in Hidle. subst key. cbn [Z.eqb negb fst snd]. split; [| reflexivity].
    constructor; [reflexivity |].
    rewrite app_nil_l. apply none_app.
    + no_fx isMenuFx.
    + no_fx isWelcomeFx.
  - rewrite (frameBegin_undocked inp w Hdock). cbv zeta.
    cbn [fst snd s_currShortcut]. rewrite Hpoll. split; [| assumption].
    repeat constructor.
Qed.

Lemma loop_body_idle (inp : FrameInput) (w : Window) :
  fst (s_currShortcut w) = (-1)%Z ->
  no_press (keyEvents inp) ->
  none isShortcutFx (fst (loop_body scalar_mul inp w))
  /\ fst (s_currShortcut (snd (loop_body scalar_mul inp w))) = (-1)%Z.
Proof.
  intros Hidle Hquiet.
  destruct (frameBegin_idle inp w Hidle Hquiet) as [Hfx Hkey].
  destruct (loop_body_snd scalar_mul inp w) as (_ & Hshortcut & _).
  rewrite Hshortcut. split; [| assumption].
  rewrite loop_body_fst. apply none_app; [assumption |].
  apply none_app.
  - no_fx isDeferredFx.
  - no_fx isLateFx.
Qed.

Lemma loop_idle (frames : list FrameInput) (w : Window) :
  fst (s_currShortcut w) = (-1)%Z ->
  Forall (fun inp => no_press (keyEvents inp)) frames ->
  Forall (none isShortcutFx) (fst (loop scalar_mul frames w)).
Proof.
  intros Hidle Hquiet. revert w Hidle.
  induction Hquiet as [|inp frames Hinp _ IH]; intros w Hidle; simpl.
  - constructor.
  - destruct (windowShouldClose inp); [constructor |].
    destruct (loop_body_idle inp w Hidle Hinp) as [Hfx Hkey].
    destruct (loop_body scalar_mul inp w) as [fx w'] eqn:Hbody.
    cbn [fst snd] in *.
    specialize (IH w' Hkey).
    destruct (loop scalar_mul frames w') as [traces w''].
    cbn [fst] in *. now constructor.
Qed.

(** C10: [s_currShortcut] is one slot.  Of the key presses of a poll the
    last one is what stays pending; a frame that dispatches leaves the slot
    at (-1, -1) whatever the handlers of the views return; and the frames
    after it offer no shortcut to any view until a key is pressed again. *)
Theorem pending_shortcut_dispatched_once (inp : FrameInput) (w : Window) :
  beginDockSpace inp = true ->
  fst (fst (glfwPollEvents (keyEvents inp) (s_currShortcut w, io w))) <> (-1)%Z ->
  (forall before ev after st,
      ev_action ev = GLFW_PRESS -> no_press after ->
      fst (glfwPollEvents (before ++ ev :: after) st) = (ev_key ev, ev_mods ev))
  /\ s_currShortcut (snd (frameBegin inp w)) = no_shortcut
  /\ s_currShortcut (snd (loop_body scalar_mul inp w)) = no_shortcut
  /\ (forall frames,
        Forall (fun later => no_press (keyEvents later)) frames ->
        Forall (none isShortcutFx)
               (fst (loop scalar_mul frames (snd (loop_body scalar_mul inp w))))).
Proof.
  intros Hdock Hkey.
  destruct (fst (glfwPollEvents (keyEvents inp) (s_currShortcut w, io w)))
    as [key mods] eqn:Hpoll.
  cbn [fst] in Hkey.
  destruct (frameBegin_shortcutFx inp w key mods Hdock Hpoll Hkey) as [_ Hreset].
  destruct (loop_body_snd scalar_mul inp w) as (_ & Hshortcut & _).
  split; [| split; [| split]].
  - intros before ev after st. apply glfwPollEvents_last_press.
  - assumption.
  - now rewrite Hshortcut.
  - intros frames Hquiet. apply loop_idle; [| assumption].
    rewrite Hshortcut, Hreset. reflexivity.
Qed.

End PendingShortcut.

(** ** The destructor *)

Lemma precedes_none {A : Type} (P Q : A -> bool) (trace : list A) :
  none P trace -> precedes P Q trace.
Proof.
  intros HP i j a b Hi _ Pa _.
  rewrite (none_nth_error P trace i a HP Hi) in Pa. discriminate.
Qed.

Lemma precedes_skip {A : Type} (P Q : A -> bool) (l1 l2 : list A) :
  none Q l1 -> precedes P Q l2 -> precedes P Q (l1 ++ l2).
Proof.
  intros HQ Hrest i j a b Hi Hj Pa Qb.
  destruct (Nat.lt_ge_cases j (List.length l1)) as [Hj1 | Hj2].
  - rewrite nth_error_app1 in Hj by assumption.
    rewrite (none_nth_error Q l1 j b HQ Hj) in Qb. discriminate.
  - destruct (Nat.lt_ge_cases i (List.length l1)) as [Hi1 | Hi2].
    + lia.
    + rewrite nth_error_app2 in Hi by assumption.
      rewrite nth_error_app2 in Hj by assumption.
      pose proof (Hrest _ _ a b Hi Hj Pa Qb). lia.
Qed.

Section Destructor.

Context {scalar : Type}.

Abbreviation View := (View scalar).

Lemma delete_views_none (P : Teardown -> bool) (views : list View) :
  (forall name, P (TdDeleteView name) = false) ->
  none P (map (fun view => TdDeleteView (getName view)) views).
Proof.
  intro HP. unfold none. apply Forall_map. apply Forall_forall. intros view _. apply HP.
Qed.

Ltac no_such_step :=
  first [ apply delete_views_none; reflexivity
        | solve [unfold deinitImGui, deinitGLFW, deinitPlugins; repeat constructor] ].

Ltac steps_in_order :=
  repeat (apply precedes_skip; [no_such_step |]);
  apply precedes_none; repeat (apply none_app; [no_such_step |]); no_such_step.

Lemma destroy_steps_filter (kind : Teardown -> bool) (this : nat) (views : list View)
  (handlers : list EventHandler) :
  filter kind (destroy_steps this views handlers)
  = filter kind (deinitImGui ++ deinitGLFW ++ [TdSettingsStore])
    ++ filter kind (map (fun view => TdDeleteView (getName view)) views)
    ++ filter kind ([TdClearEntries] ++ deinitPlugins ++ [TdUnsubscribe SettingsChanged]).
Proof.
  unfold destroy_steps, Window_destroy. cbn [fst].
  now rewrite !filter_app, <- !app_assoc.
Qed.

(** The steps of the destructor are its five stages one after the other:
    the five steps of the backend teardown, the settings store, the deletion
    of every view in registration order and the clearing of the registry,
    the plugin unload, the unsubscription from [SettingsChanged]; every step
    of a stage comes before every step of a later stage, and the registry is
    left empty. *)
Theorem Window_destroy_order (this : nat) (views : list View)
  (handlers : list EventHandler) :
  let steps := destroy_steps this views handlers in
  filter isBackendTeardown steps
  = [TdImplOpenGL3Shutdown; TdImplGlfwShutdown; TdDestroyContext;
     TdDestroyWindow; TdGlfwTerminate]
  /\ filter isSettingsStore steps = [TdSettingsStore]
  /\ filter isViewTeardown steps
     = map (fun view => TdDeleteView (getName view)) views ++ [TdClearEntries]
  /\ filter isPluginsUnload steps = [TdPluginsUnload]
  /\ filter isUnsubscribe steps = [TdUnsubscribe SettingsChanged]
  /\ steps = filter isBackendTeardown steps ++ filter isSettingsStore steps
             ++ filter isViewTeardown steps ++ filter isPluginsUnload steps
             ++ filter isUnsubscribe steps
  /\ precedes isBackendTeardown isSettingsStore steps
  /\ precedes isSettingsStore isViewTeardown steps
  /\ precedes isViewTeardown isPluginsUnload steps
  /\ precedes isPluginsUnload isUnsubscribe steps
  /\ snd (fst (Window_destroy this views handlers)) = [].
Proof.
  cbv zeta.
  assert (Hdeleted : filter isViewTeardown
                       (map (fun view : View => TdDeleteView (getName view)) views)
                     = map (fun view => TdDeleteView (getName view)) views).
  { apply filter_all. apply Forall_map. apply Forall_forall. reflexivity. }
  assert (Hother : forall kind : Teardown -> bool,
             (forall name, kind (TdDeleteView name) = false) ->
             filter kind (map (fun view : View => TdDeleteView (getName view)) views)
             = []).
  { intros kind Hkind. apply filter_none. now apply delete_views_none. }
  rewrite !destroy_steps_filter, Hdeleted.
  rewrite (Hother isBackendTeardown), (Hother isSettingsStore),
    (Hother isPluginsUnload), (Hother isUnsubscribe) by reflexivity.
  split; [reflexivity |]. split; [reflexivity |]. split; [reflexivity |].
  split; [reflexivity |]. split; [reflexivity |].
  unfold destroy_steps, Window_destroy. cbn [fst snd].
  split; [| split; [| split; [| split; [| split]]]].
  - unfold deinitImGui, deinitGLFW, deinitPlugins. cbn [app filter isBackendTeardown
      isSettingsStore isViewTeardown isPluginsUnload isUnsubscribe].
    now rewrite <- app_assoc.
  - steps_in_order.
  - steps_in_order.
  - steps_in_order.
  - steps_in_order.
  - reflexivity.
Qed.

Lemma unsubscribe_keeps_other_events (ev ev' : Events) (this : nat)
  (handlers : list EventHandler) :
  Events_eqb ev' ev = false ->
  In {| eventType := ev'; owner := this |} handlers ->
  In {| eventType := ev'; owner := this |} (unsubscribe ev this handlers).
Proof.
  intros Hne Hin. unfold unsubscribe. apply filter_In. split; [assumption |].
  cbn [eventType owner]. now rewrite Hne.
Qed.

(** C5 (the last step fails): the constructor subscribes to three events
    and the destructor unsubscribes from [SettingsChanged] alone; the
    subscriptions to [FileLoaded] and [CloseImHex] outlive the window. *)
Theorem Window_destroy_leaves_subscriptions (this : nat) (views : list View)
  (handlers : list EventHandler) :
  let left := snd (Window_destroy this views (Window_subscribe this handlers)) in
  In {| eventType := FileLoaded; owner := this |} left
  /\ In {| eventType := CloseImHex; owner := this |} left
  /\ ~ In {| eventType := SettingsChanged; owner := this |} left
  /\ owned_by this (snd (Window_destroy this views (Window_subscribe this [])))
     = [FileLoaded; CloseImHex].
Proof.
  cbv zeta. unfold Window_destroy, Window_subscribe, subscribe. cbn [snd].
  split; [| split; [| split]].
  4:{ unfold owned_by, unsubscribe. cbn. rewrite !Nat.eqb_refl. cbn.
      rewrite !Nat.eqb_refl. reflexivity. }
  - apply unsubscribe_keeps_other_events; [reflexivity |].
    apply in_or_app. left. apply in_or_app. right. now left.
  - apply unsubscribe_keeps_other_events; [reflexivity |].
    apply in_or_app. right. now left.
  - unfold unsubscribe. rewrite filter_In. intros [_ H].
    cbn [eventType owner Events_eqb] in H. rewrite Nat.eqb_refl in H. discriminate.
Qed.

End Destructor.

(** ** The settings handler *)

Lemma chars_append (a b : string) : chars (a ++ b)%string = chars a ++ chars b.
Proof.
  unfold chars. induction a as [|c a IH]; simpl; [reflexivity | now rewrite IH].
Qed.

Lemma plain_char_true (c : ascii) :
  plain_char c = true ->
  Ascii.eqb c "%" = false /\ Ascii.eqb c "=" = false
  /\ Ascii.eqb c zero = false /\ Ascii.eqb c line_feed = false.
Proof.
  unfold plain_char. rewrite !andb_true_iff, !negb_true_iff. tauto.
Qed.

Lemma c_str_plain (s t : list ascii) :
  forallb plain_char s = true -> c_str (s ++ t) = s ++ c_str t.
Proof.
  induction s as [|c s IH]; simpl; intro Hplain; [reflexivity |].
  apply andb_true_iff in Hplain. destruct Hplain as [Hc Hs].
  destruct (plain_char_true c Hc) as (_ & _ & Hnul & _).
  rewrite Hnul. now rewrite IH.
Qed.

Lemma format_s_plain (s : string) : plain s -> format_s s = s.
Proof.
  intro Hplain. unfold format_s.
  rewrite <- (app_nil_r (chars s)), c_str_plain by assumption.
  simpl. rewrite app_nil_r. apply string_of_list_ascii_of_string.
Qed.

Lemma plain_no_percent (s : list ascii) :
  forallb plain_char s = true -> Forall (fun c => Ascii.eqb c "%" = false) s.
Proof.
  intro Hplain. apply Forall_forall. intros c Hin.
  rewrite forallb_forall in Hplain.
  now destruct (plain_char_true c (Hplain c Hin)).
Qed.

Lemma plain_no_separator (s : list ascii) :
  forallb plain_char s = true -> ~ In "="%char s.
Proof.
  intros Hplain Hin. rewrite forallb_forall in Hplain. specialize (Hplain _ Hin).
  discriminate.
Qed.

Lemma plain_one_line (s : list ascii) :
  forallb plain_char s = true ->
  forallb (fun c => negb (Ascii.eqb c line_feed)) s = true.
Proof.
  intro Hplain. apply forallb_forall. intros c Hin.
  rewrite forallb_forall in Hplain.
  destruct (plain_char_true c (Hplain c Hin)) as (_ & _ & _ & Hlf).
  now rewrite Hlf.
Qed.

(** [sscanf] runs the literal part of a format first. *)
Lemma sscanf_literal (literal fmt input : list ascii) :
  Forall (fun c => Ascii.eqb c "%" = false) literal ->
  sscanf input (literal ++ fmt)
  = match match_literal input literal with
    | Some rest => sscanf rest fmt
    | None => Some []
    end.
Proof.
  intro Hlit. revert input.
  induction Hlit as [|c literal Hc _ IH]; intro input; [reflexivity |].
  cbn [app sscanf match_literal].
  destruct (isspace c); [apply IH |].
  rewrite Hc. destruct input as [|i input]; [reflexivity |].
  destruct (Ascii.eqb c i); [apply IH | reflexivity].
Qed.

Lemma skip_space_idem (input : list ascii) :
  skip_space (skip_space input) = skip_space input.
Proof.
  induction input as [|c input IH]; simpl; [reflexivity |].
  destruct (isspace c) eqn:Hc; [assumption |].
  simpl. now rewrite Hc.
Qed.

(** A text matches itself as a literal, whatever white space it holds, when
    what follows it in the input is not white space. *)
Lemma match_literal_self (s x literal : list ascii) (c : ascii) :
  isspace c = false ->
  match_literal (s ++ c :: x) (s ++ literal) = match_literal (c :: x) literal
  /\ match_literal (skip_space (s ++ c :: x)) (s ++ literal)
     = match_literal (c :: x) literal.
Proof.
  intro Hc. induction s as [|a s [IH1 IH2]].
  - cbn [app]. split; [reflexivity |]. simpl. now rewrite Hc.
  - destruct (isspace a) eqn:Ha.
    + cbn [app match_literal skip_space]. rewrite Ha.
      rewrite skip_space_idem. now split.
    + cbn [app match_literal skip_space]. rewrite Ha.
      rewrite Ascii.eqb_refl. now split.
Qed.

Lemma skip_space_split (input : list ascii) :
  exists blank, input = blank ++ skip_space input /\ strip_space blank = [].
Proof.
  induction input as [|c input [blank [Heq Hblank]]]; simpl.
  - now exists [].
  - destruct (isspace c) eqn:Hc.
    + exists (c :: blank). split; [simpl; now f_equal |].
      unfold strip_space in *. simpl. now rewrite Hc.
    + now exists [].
Qed.

Lemma strip_space_app (a b : list ascii) :
  strip_space (a ++ b) = strip_space a ++ strip_space b.
Proof. apply filter_app. Qed.

(** What a literal consumes is the literal itself, white space aside. *)
Lemma match_literal_consumed (literal input rest : list ascii) :
  match_literal input literal = Some rest ->
  exists consumed,
    input = consumed ++ rest /\ strip_space consumed = strip_space literal.
Proof.
  revert input. induction literal as [|c literal IH]; intros input Hmatch.
  - simpl in Hmatch. injection Hmatch as <-. now exists [].
  - cbn [match_literal] in Hmatch. destruct (isspace c) eqn:Hc.
    + destruct (IH _ Hmatch) as [consumed [Heq Hstrip]].
      destruct (skip_space_split input) as [blank [Hinput Hblank]].
      exists (blank ++ consumed). split.
      * rewrite <- app_assoc, <- Heq. exact Hinput.
      * rewrite strip_space_app, Hblank, Hstrip.
        unfold strip_space. simpl. now rewrite Hc.
    + destruct input as [|i input]; [discriminate |].
      destruct (Ascii.eqb c i) eqn:Hci; [| discriminate].
      apply Ascii.eqb_eq in Hci. subst i.
      destruct (IH _ Hmatch) as [consumed [Heq Hstrip]].
      exists (c :: consumed). split; [simpl; now f_equal |].
      unfold strip_space in *. simpl. rewrite Hc. simpl. now f_equal.
Qed.

Lemma split_at_separator (c : ascii) (l1 l2 r1 r2 : list ascii) :
  ~ In c l1 -> ~ In c l2 -> l1 ++ c :: r1 = l2 ++ c :: r2 -> l1 = l2.
Proof.
  revert l2. induction l1 as [|a l1 IH]; intros l2 H1 H2 Heq.
  - destruct l2 as [|b l2]; [reflexivity |].
    simpl in Heq. injection Heq as Hcb _. subst b. exfalso. apply H2. now left.
  - destruct l2 as [|b l2].
    + simpl in Heq. injection Heq as Hac _. subst a. exfalso. apply H1. now left.
    + simpl in Heq. injection Heq as Hab Hrest. subst b. f_equal.
      apply IH with (l2 := l2); [| | assumption].
      * intro Hin. apply H1. now right.
      * intro Hin. apply H2. now right.
Qed.

Lemma strip_space_In (c : ascii) (s : list ascii) : In c (strip_space s) -> In c s.
Proof. unfold strip_space. rewrite filter_In. tauto. Qed.

(** If the literal [name=] matches a text, the text is, white space aside,
    the name, the separator and something more. *)
Lemma match_literal_name (name input rest : list ascii) :
  match_literal input (name ++ ["="%char]) = Some rest ->
  exists more, strip_space input = strip_space name ++ "="%char :: more.
Proof.
  intro Hmatch.
  destruct (match_literal_consumed _ _ _ Hmatch) as [consumed [Heq Hstrip]].
  exists (strip_space rest).
  rewrite Heq, strip_space_app, Hstrip, strip_space_app, <- app_assoc.
  reflexivity.
Qed.

Lemma append_assoc (a b c : string) : ((a ++ b) ++ c)%string = (a ++ (b ++ c))%string.
Proof. induction a as [|x a IH]; simpl; [reflexivity | now rewrite IH]. Qed.

(** The digits [%d] prints for a flag: [%d] reads the flag back from them,
    and they hold neither a NUL nor a line feed. *)
Lemma flag_digits (flag : Byte.byte) :
  let digits := chars (format_d (Z.of_N (Byte.to_N flag))) in
  sscanf digits ["%"; "d"]%char = Some [Z.of_N (Byte.to_N flag)]
  /\ c_str digits = digits
  /\ forallb (fun c => negb (Ascii.eqb c line_feed)) digits = true
  /\ low_byte (Z.of_N (Byte.to_N flag)) = flag.
Proof. destruct flag; repeat split; reflexivity. Qed.

(** The lines of a text made of lines without line feeds are those lines. *)
Lemma text_lines_from_line (passed line rest : list ascii) :
  forallb (fun c => negb (Ascii.eqb c line_feed)) line = true ->
  text_lines_from passed (line ++ line_feed :: rest)
  = (passed ++ line) :: text_lines_from [] rest.
Proof.
  revert passed. induction line as [|c line IH]; intros passed Hline.
  - cbn [app text_lines_from]. rewrite Ascii.eqb_refl. now rewrite app_nil_r.
  - cbn [forallb] in Hline. apply andb_true_iff in Hline. destruct Hline as [Hc Hline].
    apply negb_true_iff in Hc. cbn [app text_lines_from]. rewrite Hc.
    rewrite IH by assumption. now rewrite <- app_assoc.
Qed.

Lemma text_lines_of_lines (lines : list string) :
  Forall (fun line => forallb (fun c => negb (Ascii.eqb c line_feed)) (chars line) = true)
         lines ->
  text_lines (lines_text lines) = lines.
Proof.
  unfold text_lines. induction 1 as [|line lines Hline _ IH]; [reflexivity |].
  cbn [lines_text fold_right]. rewrite chars_append.
  change (chars (LF ++ fold_right (fun line rest => (line ++ LF ++ rest)%string)
                                  EmptyString lines)%string)
    with (line_feed :: chars (lines_text lines)).
  rewrite text_lines_from_line by assumption.
  cbn [map app]. rewrite IH. f_equal. apply string_of_list_ascii_of_string.
Qed.

Lemma NoDup_map_injective {A B : Type} (f : A -> B) (l : list A) (a b : A) :
  NoDup (map f l) -> In a l -> In b l -> f a = f b -> a = b.
Proof.
  induction l as [|x l IH]; intros Hnd Ha Hb Heq; [destruct Ha |].
  cbn [map] in Hnd. inversion Hnd as [|y ys Hnotin Hnd']; subst.
  destruct Ha as [Ha | Ha], Hb as [Hb | Hb]; subst.
  - reflexivity.
  - exfalso. apply Hnotin. rewrite Heq. now apply in_map.
  - exfalso. apply Hnotin. rewrite <- Heq. now apply in_map.
  - now apply IH.
Qed.

Section SettingsHandler.

Context {scalar : Type}.

Abbreviation View := (View scalar).

Lemma format_chars (name : string) :
  plain name ->
  c_str (chars (name ++ "=%d")%string) = (chars name ++ ["="%char]) ++ ["%"; "d"]%char.
Proof.
  intro Hplain. rewrite chars_append, c_str_plain by assumption.
  rewrite <- app_assoc. reflexivity.
Qed.

Lemma entry_text_plain (view : View) :
  plain (getName view) ->
  entry_text view = (getName view ++ "=" ++ format_d (flag_value view))%string.
Proof. intro Hplain. unfold entry_text. now rewrite format_s_plain. Qed.

Lemma entry_chars (view : View) :
  plain (getName view) ->
  c_str (chars (entry_text view))
  = chars (getName view) ++ "="%char :: chars (format_d (flag_value view)).
Proof.
  intro Hplain. rewrite entry_text_plain by assumption.
  rewrite chars_append, c_str_plain by assumption.
  destruct (flag_digits (windowOpenState view)) as (_ & Hdigits & _).
  cbv zeta in Hdigits. unfold flag_value.
  change (c_str (chars ("=" ++ format_d (Z.of_N (Byte.to_N (windowOpenState view))))%string))
    with ("="%char :: c_str (chars (format_d (Z.of_N (Byte.to_N (windowOpenState view)))))).
  now rewrite Hdigits.
Qed.

Lemma entry_one_line (view : View) :
  plain (getName view) ->
  forallb (fun c => negb (Ascii.eqb c line_feed)) (chars (entry_text view)) = true.
Proof.
  intro Hplain. rewrite entry_text_plain by assumption.
  rewrite chars_append, forallb_app. apply andb_true_iff. split.
  - now apply plain_one_line.
  - destruct (flag_digits (windowOpenState view)) as (_ & _ & Hdigits & _).
    exact Hdigits.
Qed.

Lemma name_literal (name : string) :
  plain name -> Forall (fun c => Ascii.eqb c "%" = false) (chars name ++ ["="%char]).
Proof.
  intro Hplain. apply Forall_app. split; [now apply plain_no_percent |].
  repeat constructor.
Qed.

(** A view reads the flag back from its own entry. *)
Lemma ReadLine_view_own (written view : View) :
  plain (getName written) ->
  getName view = getName written ->
  ReadLine_view (entry_text written) view
  = Some (storeWindowOpenState view (windowOpenState written)).
Proof.
  intros Hplain Hname. unfold ReadLine_view.
  rewrite Hname, format_chars, entry_chars by assumption.
  rewrite sscanf_literal by now apply name_literal.
  destruct (match_literal_self (chars (getName written))
              (chars (format_d (flag_value written))) ["="%char] "="%char
              eq_refl) as [Hself _].
  rewrite Hself.
  destruct (flag_digits (windowOpenState written)) as (Hscan & _ & _ & Hbyte).
  cbv zeta in Hscan. unfold flag_value.
  change (match_literal
            ("="%char :: chars (format_d (Z.of_N (Byte.to_N (windowOpenState written)))))
            ["="%char])
    with (Some (chars (format_d (Z.of_N (Byte.to_N (windowOpenState written)))))).
  cbv beta iota. rewrite Hscan. now rewrite Hbyte.
Qed.

(** A line leaves a view alone unless, white space aside, it starts with
    the name of the view and the separator. *)
Lemma ReadLine_view_unmatched (line : string) (view : View) :
  plain (getName view) ->
  (forall more, strip_space (c_str (chars line)) <> stripped_name view ++ "="%char :: more) ->
  ReadLine_view line view = Some view.
Proof.
  intros Hplain Hline. unfold ReadLine_view.
  rewrite format_chars by assumption.
  rewrite sscanf_literal by now apply name_literal.
  destruct (match_literal (c_str (chars line)) (chars (getName view) ++ ["="%char]))
    as [rest |] eqn:Hmatch; [| reflexivity].
  destruct (match_literal_name _ _ _ Hmatch) as [more Hmore].
  exfalso. exact (Hline more Hmore).
Qed.

Lemma ReadLine_view_other (written view : View) :
  plain (getName written) ->
  plain (getName view) ->
  stripped_name written <> stripped_name view ->
  ReadLine_view (entry_text written) view = Some view.
Proof.
  intros Hw Hv Hdiff. apply ReadLine_view_unmatched; [assumption |].
  intros more Hmore. apply Hdiff.
  rewrite entry_chars, strip_space_app in Hmore by assumption.
  assert (Hsep : strip_space ("="%char :: chars (format_d (flag_value written)))
                 = "="%char :: strip_space (chars (format_d (flag_value written))))
    by reflexivity.
  rewrite Hsep in Hmore.
  apply split_at_separator in Hmore; [exact Hmore | |].
  - intro Hin. apply strip_space_In in Hin. now apply plain_no_separator in Hin.
  - intro Hin. apply strip_space_In in Hin. now apply plain_no_separator in Hin.
Qed.

Lemma read_entry_name (written view : View) :
  getName (read_entry written view) = getName view.
Proof. unfold read_entry. now destruct (String.eqb (getName view) (getName written)). Qed.

(** Among names the handler can tell apart, two views have the same name or
    names that differ even without their white space. *)
Lemma name_cases (views : list View) (written view : View) :
  settings_safe views ->
  In written views ->
  In (getName view) (map getName views) ->
  getName view = getName written \/ stripped_name written <> stripped_name view.
Proof.
  intros [_ Hnodup] Hwritten Hview.
  apply in_map_iff in Hview. destruct Hview as [same [Hname Hsame]].
  destruct (String.eqb (getName view) (getName written)) eqn:Heq.
  - left. now apply String.eqb_eq.
  - right. intro Hstripped. apply String.eqb_neq in Heq. apply Heq.
    rewrite <- Hname. f_equal.
    apply (NoDup_map_injective stripped_name views); try assumption.
    rewrite Hstripped. unfold stripped_name. now rewrite Hname.
Qed.

Lemma plain_name (views : list View) (view : View) :
  settings_safe views -> In (getName view) (map getName views) -> plain (getName view).
Proof.
  intros [Hplain _] Hview.
  apply in_map_iff in Hview. destruct Hview as [same [Hname Hsame]].
  rewrite Forall_forall in Hplain. rewrite <- Hname. now apply Hplain.
Qed.

(** Reading the entry of a view into a registry of views named like those
    written. *)
Lemma ReadLine_entry (views current : list View) (written : View) :
  settings_safe views ->
  In written views ->
  Forall (fun view => In (getName view) (map getName views)) current ->
  ImHexSettingsHandler_ReadLine (entry_text written) current
  = Some (map (read_entry written) current).
Proof.
  intros Hsafe Hwritten Hcurrent.
  assert (Hplain : plain (getName written))
    by (apply (plain_name views); [assumption | now apply in_map]).
  induction Hcurrent as [|view current Hview _ IH]; [reflexivity |].
  cbn [ImHexSettingsHandler_ReadLine map]. rewrite IH.
  assert (Hread : ReadLine_view (entry_text written) view
                  = Some (read_entry written view)).
  { unfold read_entry.
    destruct (String.eqb (getName view) (getName written)) eqn:Heq.
    - apply String.eqb_eq in Heq. now apply ReadLine_view_own.
    - apply String.eqb_neq in Heq.
      destruct (name_cases views written view Hsafe Hwritten Hview) as [Hsame | Hdiff];
        [contradiction |].
      apply ReadLine_view_other; [assumption | now apply (plain_name views) | assumption]. }
  now rewrite Hread.
Qed.

Lemma read_lines_entries (views written current : list View) :
  settings_safe views ->
  incl written views ->
  Forall (fun view => In (getName view) (map getName views)) current ->
  read_lines (map entry_text written) current
  = Some (fold_left (fun current w => map (read_entry w) current) written current).
Proof.
  intros Hsafe. revert current.
  induction written as [|w written IH]; intros current Hincl Hcurrent; [reflexivity |].
  cbn [map read_lines fold_left].
  rewrite (ReadLine_entry views) by (try assumption; apply Hincl; now left).
  apply IH.
  - intros u Hu. apply Hincl. now right.
  - apply Forall_forall. intros view Hin.
    apply in_map_iff in Hin. destruct Hin as [before [Hread Hbefore]]. subst view.
    rewrite read_entry_name. rewrite Forall_forall in Hcurrent. now apply Hcurrent.
Qed.

Lemma read_entries_map (written current : list View) :
  fold_left (fun current w => map (read_entry w) current) written current
  = map (fun view => fold_left (fun view w => read_entry w view) written view) current.
Proof.
  revert current. induction written as [|w written IH]; intro current; simpl.
  - now rewrite map_id.
  - rewrite IH. now rewrite map_map.
Qed.

Lemma read_entries_others (written : list View) (view : View) :
  (forall w, In w written -> getName w <> getName view) ->
  fold_left (fun view w => read_entry w view) written view = view.
Proof.
  induction written as [|w written IH]; intro Hdiff; simpl; [reflexivity |].
  assert (Hw : read_entry w view = view).
  { unfold read_entry. destruct (String.eqb (getName view) (getName w)) eqn:Heq;
      [| reflexivity].
    apply String.eqb_eq in Heq. exfalso. apply (Hdiff w); [now left | now symmetry]. }
  rewrite Hw. apply IH. intros u Hu. apply Hdiff. now right.
Qed.

Lemma read_entries_own (before after : list View) (written view : View) :
  NoDup (map getName (before ++ written :: after)) ->
  getName view = getName written ->
  fold_left (fun view w => read_entry w view) (before ++ written :: after) view
  = storeWindowOpenState view (windowOpenState written).
Proof.
  intros Hnodup Hname.
  rewrite map_app in Hnodup. cbn [map] in Hnodup. apply NoDup_remove_2 in Hnodup.
  assert (Hown : read_entry written view
                 = storeWindowOpenState view (windowOpenState written))
    by (unfold read_entry; now rewrite Hname, String.eqb_refl).
  assert (Hfirst : fold_left (fun view w => read_entry w view) before view = view).
  { apply read_entries_others. intros u Hu Heq. apply Hnodup. apply in_or_app. left.
    rewrite <- Hname, <- Heq. now apply in_map. }
  rewrite fold_left_app. cbn [fold_left]. rewrite Hfirst, Hown.
  apply read_entries_others. intros u Hu Heq. apply Hnodup.
  apply in_or_app. right. cbn [getName storeWindowOpenState] in Heq.
  rewrite <- Hname, <- Heq. now apply in_map.
Qed.

Lemma read_back (before written current : list View) :
  NoDup (map getName (before ++ written)) ->
  map getName current = map getName written ->
  map (fun view => fold_left (fun view w => read_entry w view) (before ++ written) view)
      current
  = restore current written.
Proof.
  revert before current.
  induction written as [|w written IH]; intros before current Hnodup Hnames.
  - destruct current; [reflexivity | discriminate].
  - destruct current as [|v current]; [discriminate |].
    cbn [map] in Hnames. injection Hnames as Hname Hnames.
    unfold restore. cbn [map combine fst snd]. f_equal.
    + now apply read_entries_own.
    + replace (before ++ w :: written) with ((before ++ [w]) ++ written)
        by now rewrite <- app_assoc.
      apply IH; [| assumption]. now rewrite <- app_assoc.
Qed.

Lemma restore_flags (current written : list View) :
  map getName current = map getName written ->
  map windowOpenState (restore current written) = map windowOpenState written
  /\ map getName (restore current written) = map getName current.
Proof.
  revert current. induction written as [|w written IH]; intros current Hnames.
  - destruct current; [now split | discriminate].
  - destruct current as [|v current]; [discriminate |].
    cbn [map] in Hnames. injection Hnames as _ Hnames.
    destruct (IH current Hnames) as [Hflags Hsame].
    unfold restore in *. cbn [map combine fst snd]. split; f_equal; assumption.
Qed.

Lemma restore_same (views : list View) : restore views views = views.
Proof.
  unfold restore. induction views as [|v views IH]; [reflexivity |].
  cbn [map combine fst snd]. rewrite IH. now destruct v.
Qed.

Lemma WriteAll_entries (views : list View) (buf : string) :
  fold_left (fun buf view => (buf ++ entry_text view ++ LF)%string) views buf
  = (buf ++ lines_text (map entry_text views))%string.
Proof.
  revert buf. induction views as [|v views IH]; intro buf; simpl.
  - induction buf as [|c buf IHb]; simpl; [reflexivity | now rewrite <- IHb].
  - rewrite IH. now rewrite !append_assoc.
Qed.

Lemma safe_names_differ (views : list View) :
  settings_safe views -> NoDup (map getName views).
Proof.
  intros [_ Hnodup]. unfold stripped_name in Hnodup.
  rewrite <- (map_map getName (fun name => strip_space (chars name))) in Hnodup.
  now apply NoDup_map_inv in Hnodup.
Qed.

End SettingsHandler.

Section SettingsRoundTrip.

Context {scalar : Type}.

Abbreviation View := (View scalar).

(** C9, amended: the writer emits the header [[TypeName][General]], one
    line [Name=IntegerValue] per view in registration order, the integer
    being the value of the open flag, and an empty line.  When the names are
    free of the characters percent, equals, NUL and line feed and stay
    different once their white space is removed, the lines of the emitted
    entries are these entry lines, and feeding them back to the reader, in
    order, gives every view of a registry with the same names the flag that
    was written for it; and a line that, white space aside, does not start
    with the name of a view and the separator leaves every view as it
    was. *)
Theorem settings_round_trip (TypeName : string) (written current : list View)
  (buf : string) :
  settings_safe written ->
  map getName current = map getName written ->
  ImHexSettingsHandler_WriteAll TypeName written buf
  = (buf ++ "[" ++ format_s TypeName ++ "][General]" ++ LF
         ++ lines_text (map entry_text written) ++ LF)%string
  /\ (forall view, In view written ->
        entry_text view = (getName view ++ "=" ++ format_d (flag_value view))%string)
  /\ text_lines (lines_text (map entry_text written)) = map entry_text written
  /\ read_lines (text_lines (lines_text (map entry_text written))) current
     = Some (restore current written)
  /\ map windowOpenState (restore current written) = map windowOpenState written
  /\ map getWindowOpenState (restore current written) = map getWindowOpenState written
  /\ read_lines (text_lines (lines_text (map entry_text written))) written = Some written
  /\ (forall line,
        (forall view more, In view current ->
           strip_space (c_str (chars line)) <> stripped_name view ++ "="%char :: more) ->
        ImHexSettingsHandler_ReadLine line current = Some current).
Proof.
  intros Hsafe Hnames.
  assert (Hlines : text_lines (lines_text (map entry_text written))
                   = map entry_text written).
  { apply text_lines_of_lines. apply Forall_forall. intros line Hin.
    apply in_map_iff in Hin. destruct Hin as [view [Hline Hview]]. subst line.
    apply entry_one_line. destruct Hsafe as [Hplain _].
    rewrite Forall_forall in Hplain. now apply Hplain. }
  assert (Hback : forall views, map getName views = map getName written ->
                                read_lines (map entry_text written) views
                                = Some (restore views written)).
  { intros views Hviews.
    rewrite (read_lines_entries written);
      [| assumption | apply incl_refl
       | apply Forall_forall; intros view Hin; rewrite <- Hviews; now apply in_map].
    rewrite read_entries_map. f_equal.
    apply (read_back [] written views); [| assumption].
    now apply safe_names_differ. }
  assert (Hflags : map windowOpenState (restore current written)
                   = map windowOpenState written) by now apply restore_flags.
  split; [| split; [| split; [| split; [| split; [| split; [| split]]]]]].
  - unfold ImHexSettingsHandler_WriteAll. rewrite WriteAll_entries.
    now rewrite !append_assoc.
  - intros view Hin. apply entry_text_plain. destruct Hsafe as [Hplain _].
    rewrite Forall_forall in Hplain. now apply Hplain.
  - exact Hlines.
  - rewrite Hlines. now apply Hback.
  - exact Hflags.
  - unfold getWindowOpenState.
    rewrite <- (map_map windowOpenState (fun flag => negb (Byte.eqb flag Byte.x00))).
    rewrite Hflags. now rewrite map_map.
  - rewrite Hlines, Hback by reflexivity. now rewrite restore_same.
  - intros line Hline.
    assert (Hcurrent : forall view, In view current -> plain (getName view)).
    { intros view Hin. apply (plain_name written); [assumption |].
      rewrite <- Hnames. now apply in_map. }
    clear Hnames Hflags. induction current as [|view current IH]; [reflexivity |].
    cbn [ImHexSettingsHandler_ReadLine].
    rewrite ReadLine_view_unmatched;
      [| apply Hcurrent; now left | intro more; apply Hline; now left].
    rewrite IH; [reflexivity | |].
    + intros u more Hu. apply Hline. now right.
    + intros u Hu. apply Hcurrent. now right.
Qed.

End SettingsRoundTrip.

(** ** The properties at concrete views and frames *)

(** C9 as stated fails: two views with different names, "Hex Editor" closed
    and "HexEditor" open.  The format of the first also matches the entry of
    the second, so reading the two emitted lines back opens both.  The same
    happens with "Find" and "Find=2": the entry of the second starts with
    the name of the first and the separator.  The entry of an open view
    whose name is "A", a line feed and "B" is two lines, "A" and "B=1";
    neither gives the view its flag back.  Nor does the entry of the open
    view "50%d", whose format expects a number where the entry has the
    percent sign, nor that of an open view whose name is "A", a NUL and "B":
    its entry and its format both end at the NUL. *)
Lemma settings_round_trip_fails :
  let views := [a_view "Hex Editor" false true false;
                a_view "HexEditor" true true false] in
  let finds := [a_view "Find" false true false;
                a_view "Find=2" true true false] in
  let broken := ("A" ++ LF ++ "B")%string in
  let cut := ("A" ++ String zero "B")%string in
  (NoDup (map getName views)
   /\ text_lines (lines_text (map entry_text views)) = ["Hex Editor=0"; "HexEditor=1"]
   /\ option_map (map getWindowOpenState)
                 (read_lines (text_lines (lines_text (map entry_text views))) views)
      = Some [true; true]
   /\ map getWindowOpenState views = [false; true])
  /\ (NoDup (map getName finds)
      /\ text_lines (lines_text (map entry_text finds)) = ["Find=0"; "Find=2=1"]
      /\ option_map (map getWindowOpenState)
                    (read_lines (text_lines (lines_text (map entry_text finds))) finds)
         = Some [true; true]
      /\ map getWindowOpenState finds = [false; true])
  /\ (text_lines (lines_text (map entry_text [a_view broken true true false]))
      = ["A"; "B=1"]
      /\ option_map (map getWindowOpenState)
                    (read_lines ["A"; "B=1"] [a_view broken false true false])
         = Some [false])
  /\ (text_lines (lines_text (map entry_text [a_view "50%d" true true false]))
      = ["50%d=1"]
      /\ option_map (map getWindowOpenState)
                    (read_lines ["50%d=1"] [a_view "50%d" false true false])
         = Some [false])
  /\ (text_lines (lines_text (map entry_text [a_view cut true true false]))
      = ["A=1"]
      /\ option_map (map getWindowOpenState)
                    (read_lines ["A=1"] [a_view cut false true false])
         = Some [false]).
Proof.
  cbv zeta. repeat split;
    repeat constructor; simpl; intuition discriminate.
Qed.

Lemma settings_round_trip_witness :
  let written := [a_view "Hex Editor" false true false;
                  a_view "Data Inspector" true true false] in
  let current := [a_view "Hex Editor" true false false;
                  a_view "Data Inspector" false true false] in
  ImHexSettingsHandler_WriteAll "ImHex" written ""
  = ("" ++ "[" ++ format_s "ImHex" ++ "][General]" ++ LF
        ++ lines_text (map entry_text written) ++ LF)%string
  /\ (forall view, In view written ->
        entry_text view = (getName view ++ "=" ++ format_d (flag_value view))%string)
  /\ text_lines (lines_text (map entry_text written)) = map entry_text written
  /\ read_lines (text_lines (lines_text (map entry_text written))) current
     = Some (restore current written)
  /\ map windowOpenState (restore current written) = map windowOpenState written
  /\ map getWindowOpenState (restore current written) = map getWindowOpenState written
  /\ read_lines (text_lines (lines_text (map entry_text written))) written = Some written
  /\ (forall line,
        (forall view more, In view current ->
           strip_space (c_str (chars line)) <> stripped_name view ++ "="%char :: more) ->
        ImHexSettingsHandler_ReadLine line current = Some current).
Proof.
  cbv zeta. apply settings_round_trip.
  - split.
    + repeat constructor.
    + repeat constructor; simpl; intuition discriminate.
  - reflexivity.
Defined.

(** C3 as stated fails: a frame with one open view, a pending shortcut and
    one deferred call.  The view is offered the shortcut (position 2) before
    the deferred call runs and before the view draws its content
    (position 4). *)
Lemma shortcut_offered_before_draw :
  let w := a_window [a_view "Hex Editor" true true true] [MkCall 7 []] (83, 2)%Z in
  fst (loop_body Z.mul (a_frame []) w)
  = [FxPollEvents;
     FxDrawMenu "Hex Editor";
     FxHandleShortcut "Hex Editor" 83 2;
     FxDeferredCall 7;
     FxDrawContent "Hex Editor" (size 960 240) (size 4000 4000);
     FxDrawCommonInterfaces;
     FxFrameEnd]
  /\ ~ precedes isDrawFx isShortcutFx (fst (loop_body Z.mul (a_frame []) w)).
Proof.
  cbv zeta. split; [reflexivity |].
  intro Hafter.
  pose proof (Hafter 4%nat 2%nat
                (FxDrawContent "Hex Editor" (size 960 240) (size 4000 4000))
                (FxHandleShortcut "Hex Editor" 83 2)
                eq_refl eq_refl eq_refl eq_refl) as Hlt.
  lia.
Qed.

(** C2 at the level of the loop: in two frames call 1 runs in the first and
    call 2, deferred by call 1, runs in neither. *)
Lemma deferred_call_lost_in_loop :
  let call1 := MkCall 1 [MkCall 2 []] in
  let w := a_window [] [call1] no_shortcut in
  map (filter isDeferredFx) (fst (loop Z.mul [a_frame []; a_frame []] w))
  = [[FxDeferredCall 1]; []].
Proof. reflexivity. Qed.


(** C8 as stated fails: in each of these three frames no view is both open
    and available, and the welcome screen is not drawn: the dock space
    window, the welcome window or its child window is not begun. *)
Lemma welcome_needs_its_windows :
  let w := a_window [a_view "Hex Editor" false true false;
                     a_view "Pattern" true false false] [] no_shortcut in
  (forall view, In view (entries w) -> open_and_available view = false)
  /\ fst (loop_body Z.mul (a_frame_begun false true true) w)
     = [FxPollEvents; FxDrawCommonInterfaces; FxFrameEnd]
  /\ fst (loop_body Z.mul (a_frame_begun true false true) w)
     = [FxPollEvents; FxDrawMenu "Hex Editor"; FxDrawMenu "Pattern";
        FxDrawCommonInterfaces; FxFrameEnd]
  /\ fst (loop_body Z.mul (a_frame_begun true true false) w)
     = [FxPollEvents; FxDrawMenu "Hex Editor"; FxDrawMenu "Pattern";
        FxDrawCommonInterfaces; FxFrameEnd]
  /\ fst (loop_body Z.mul (a_frame_begun true true true) w)
     = [FxPollEvents; FxDrawMenu "Hex Editor"; FxDrawMenu "Pattern";
        FxWelcomeScreen; FxDrawCommonInterfaces; FxFrameEnd].
Proof.
  cbv zeta. split; [| repeat split].
  intros view [<- | [<- | []]]; reflexivity.
Qed.

(** The example of the specification: of A (open, available), B (open, not
    available) and C (closed, available) only A is drawn and the welcome
    screen stays hidden; without A the welcome screen is drawn. *)
Example draw_pass_example :
  let A := a_view "A" true true false in
  let B := a_view "B" true false false in
  let C := a_view "C" false true false in
  filter (fun e => isDrawFx e || isWelcomeFx e)
         (fst (loop_body Z.mul (a_frame []) (a_window [A; B; C] [] no_shortcut)))
  = [FxDrawContent "A" (size 960 240) (size 4000 4000)]
  /\ filter (fun e => isDrawFx e || isWelcomeFx e)
            (fst (loop_body Z.mul (a_frame []) (a_window [B; C] [] no_shortcut)))
     = [FxWelcomeScreen].
Proof. split; reflexivity. Qed.

Lemma pending_shortcut_dispatched_once_witness :
  let inp := a_frame [press 65 0; press 83 2] in
  let w := a_window [a_view "Hex Editor" false true false] [] no_shortcut in
  (forall before ev after st,
      ev_action ev = GLFW_PRESS -> no_press after ->
      fst (glfwPollEvents (before ++ ev :: after) st) = (ev_key ev, ev_mods ev))
  /\ s_currShortcut (snd (frameBegin inp w)) = no_shortcut
  /\ s_currShortcut (snd (loop_body Z.mul inp w)) = no_shortcut
  /\ (forall frames,
        Forall (fun later => no_press (keyEvents later)) frames ->
        Forall (none isShortcutFx)
               (fst (loop Z.mul frames (snd (loop_body Z.mul inp w))))).
Proof.
  cbv zeta.
  refine (pending_shortcut_dispatched_once Z.mul
            (a_frame [press 65 0; press 83 2])
            (a_window [a_view "Hex Editor" false true false] [] no_shortcut)
            eq_refl _).
  vm_compute. lia.
Defined.

(** * Further properties *)

(** ** The recent-files list, continued *)

Lemma existsb_eqb_In (file : string) (seen : list string) :
  existsb (String.eqb file) seen = true <-> In file seen.
Proof.
  rewrite existsb_exists. split.
  - intros [u [Hin Heq]]. apply String.eqb_eq in Heq. now subst.
  - intro Hin. exists file. split; [assumption | apply String.eqb_refl].
Qed.

Lemma first_occurrences_In (x : string) (files seen : list string) :
  In x (first_occurrences seen files) -> In x files.
Proof.
  revert seen. induction files as [|file rest IH]; intros seen Hin; simpl in *.
  - contradiction.
  - destruct (existsb (String.eqb file) seen).
    + right. now apply (IH seen).
    + destruct Hin as [Heq | Hin]; [now left | right; now apply (IH (seen ++ [file]))].
Qed.

Lemma first_occurrences_complete (x : string) (files seen : list string) :
  In x files -> In x seen \/ In x (first_occurrences seen files).
Proof.
  revert seen. induction files as [|file rest IH]; intros seen Hin; simpl in *.
  - contradiction.
  - destruct (existsb (String.eqb file) seen) eqn:Hseen.
    + destruct Hin as [Heq | Hin].
      * left. subst x. now apply existsb_eqb_In.
      * now apply IH.
    + destruct Hin as [Heq | Hin].
      * right. now left.
      * destruct (IH (seen ++ [file]) Hin) as [Hs | Hf].
        -- apply in_app_or in Hs. destruct Hs as [Hs | [Hs | []]].
           ++ now left.
           ++ right. now left.
        -- right. now right.
Qed.

Lemma first_occurrences_length (files seen : list string) :
  (List.length (first_occurrences seen files) <= List.length files)%nat.
Proof.
  revert seen. induction files as [|file rest IH]; intro seen; simpl.
  - lia.
  - destruct (existsb (String.eqb file) seen); simpl.
    + specialize (IH seen). lia.
    + specialize (IH (seen ++ [file])). lia.
Qed.

(** Among paths that are all different and all new, every one is a first
    occurrence. *)
Lemma first_occurrences_NoDup (files seen : list string) :
  NoDup (seen ++ files) -> first_occurrences seen files = files.
Proof.
  revert seen. induction files as [|file rest IH]; intros seen Hnd; simpl.
  - reflexivity.
  - destruct (existsb (String.eqb file) seen) eqn:Hseen.
    + apply existsb_eqb_In in Hseen. apply NoDup_remove_2 in Hnd.
      exfalso. apply Hnd. apply in_or_app. now left.
    + f_equal. apply IH. now rewrite <- app_assoc.
Qed.

Lemma In_firstn {A : Type} (n : nat) (x : A) (l : list A) :
  In x (firstn n l) -> In x l.
Proof.
  intro Hin. rewrite <- (firstn_skipn n l). apply in_or_app. now left.
Qed.

(** Loading the file that is already in front changes nothing: a second
    [FileLoaded] event for the same path leaves the list and the stored
    value as the first one left them. *)
Theorem onFileLoaded_twice (path : string) (st : RecentFiles) :
  onFileLoaded path (onFileLoaded path st) = onFileLoaded path st.
Proof.
  destruct (onFileLoaded_facts path st) as (Hnd & Hlen & Hfiles & Hstored).
  cbv zeta in *.
  assert (Hsame : m_recentFiles (onFileLoaded path (onFileLoaded path st))
                  = m_recentFiles (onFileLoaded path st)).
  { rewrite (onFileLoaded_files path (onFileLoaded path st)).
    remember (m_recentFiles (onFileLoaded path st)) as files eqn:Hdef.
    cbn [firstn] in Hfiles.
    destruct files as [|front others]; [discriminate |].
    injection Hfiles as Hfront _. subst front.
    cbn [first_occurrences existsb]. rewrite String.eqb_refl. cbn [orb].
    rewrite (first_occurrences_NoDup others [path]) by exact Hnd.
    apply firstn_all2. exact Hlen. }
  unfold onFileLoaded in *. cbn [m_recentFiles] in *. now rewrite Hsame.
Qed.

(** A [FileLoaded] event invents no entry: every path of the list is the
    loaded one or was in the list before.  And it loses none while the list
    holds at most five entries: every path the list held is still there. *)
Theorem onFileLoaded_entries (path x : string) (st : RecentFiles) :
  (In x (m_recentFiles (onFileLoaded path st)) ->
   x = path \/ In x (m_recentFiles st))
  /\ ((List.length (m_recentFiles st) <= 5)%nat ->
      In x (m_recentFiles st) ->
      In x (m_recentFiles (onFileLoaded path st))).
Proof.
  rewrite onFileLoaded_files. split.
  - intro Hin. apply In_firstn in Hin. destruct Hin as [Heq | Hin].
    + left. now symmetry.
    + right. now apply first_occurrences_In in Hin.
  - intros Hlen Hin.
    rewrite firstn_all2.
    2:{ cbn [List.length].
        pose proof (first_occurrences_length (m_recentFiles st) [path]). lia. }
    destruct (first_occurrences_complete x (m_recentFiles st) [path] Hin)
      as [[Heq | []] | Hf].
    + now left.
    + now right.
Qed.

Lemma onFileLoaded_entries_witness :
  In "b" (m_recentFiles (onFileLoaded "c" (postFileLoaded ["a"; "b"] (startup [])))).
Proof.
  apply (proj2 (onFileLoaded_entries "c" "b" (postFileLoaded ["a"; "b"] (startup [])))).
  - cbn. lia.
  - cbn. tauto.
Defined.

(** ** The settings reader, continued *)

Section SettingsReader.

Context {scalar : Type}.

Abbreviation View := (View scalar).

(** The flag an entry line leaves.  For a view with a plain name, the line
    made of the name, the separator and any text stores the low byte of the
    integer at the start of the text (white space before it skipped) in the
    flag, so that a multiple of 256 closes the view like a zero does; the
    flag stays as it was when the text does not start with an integer; and
    the call is undefined when the integer does not fit an [int]. *)
Theorem ReadLine_view_value (view : View) (text : string) :
  plain (getName view) ->
  option_map windowOpenState (ReadLine_view (getName view ++ "=" ++ text)%string view)
  = match scan_int (skip_space (c_str (chars text))) with
    | Some (n, _) => if fits_int n then Some (low_byte n) else None
    | None => Some (windowOpenState view)
    end.
Proof.
  intro Hplain. unfold ReadLine_view.
  rewrite format_chars by assumption.
  rewrite chars_append, c_str_plain by assumption.
  rewrite sscanf_literal by now apply name_literal.
  change (c_str (chars ("=" ++ text)%string))
    with ("="%char :: c_str (chars text)).
  destruct (match_literal_self (chars (getName view)) (c_str (chars text))
              ["="%char] "="%char eq_refl) as [Hself _].
  rewrite Hself.
  change (match_literal ("="%char :: c_str (chars text)) ["="%char])
    with (Some (c_str (chars text))).
  cbv beta iota.
  change (sscanf (c_str (chars text)) ["%"; "d"]%char)
    with (match scan_int (skip_space (c_str (chars text))) with
          | Some (n, rest) =>
              if fits_int n then option_map (cons n) (sscanf rest []) else None
          | None => Some []
          end).
  destruct (scan_int (skip_space (c_str (chars text)))) as [[n rest] |];
    [| reflexivity].
  destruct (fits_int n); reflexivity.
Qed.

End SettingsReader.

Lemma ReadLine_view_value_witness :
  let view := a_view "Hex Editor" true true false in
  option_map windowOpenState (ReadLine_view "Hex Editor= -0x" view) = Some Byte.x00
  /\ option_map windowOpenState (ReadLine_view "Hex Editor=7 views" view) = Some Byte.x07
  /\ option_map windowOpenState (ReadLine_view "Hex Editor=256" view) = Some Byte.x00
  /\ option_map windowOpenState (ReadLine_view "Hex Editor=-1" view) = Some Byte.xff
  /\ option_map windowOpenState (ReadLine_view "Hex Editor=" view) = Some Byte.x01
  /\ option_map windowOpenState (ReadLine_view "Hex Editor=on" view) = Some Byte.x01.
Proof.
  cbv zeta. split; [| split; [| split; [| split; [| split]]]].
  - exact (ReadLine_view_value (a_view "Hex Editor" true true false) " -0x" eq_refl).
  - exact (ReadLine_view_value (a_view "Hex Editor" true true false) "7 views" eq_refl).
  - exact (ReadLine_view_value (a_view "Hex Editor" true true false) "256" eq_refl).
  - exact (ReadLine_view_value (a_view "Hex Editor" true true false) "-1" eq_refl).
  - exact (ReadLine_view_value (a_view "Hex Editor" true true false) "" eq_refl).
  - exact (ReadLine_view_value (a_view "Hex Editor" true true false) "on" eq_refl).
Defined.

(** ** The key callback, continued *)

(** Masking with one bit and comparing with zero reads that bit. *)
Lemma land_bit (mods : Z) (n : Z) :
  (0 <= n)%Z -> negb (Z.land mods (2 ^ n) =? 0)%Z = Z.testbit mods n.
Proof.
  intro Hn.
  destruct (Z.testbit mods n) eqn:Hbit.
  - apply negb_true_iff. apply Z.eqb_neq. intro Hzero.
    assert (Hland : Z.testbit (Z.land mods (2 ^ n)) n = true).
    { rewrite Z.land_spec, Hbit, Z.pow2_bits_true by assumption. reflexivity. }
    rewrite Hzero, Z.bits_0 in Hland. discriminate.
  - apply negb_false_iff. apply Z.eqb_eq. apply Z.bits_inj'. intros m Hm.
    rewrite Z.land_spec, Z.bits_0.
    destruct (Z.eq_dec n m) as [<- | Hne].
    + now rewrite Hbit.
    + rewrite Z.pow2_bits_false by assumption. apply andb_false_r.
Qed.

(** What a key event does to the ImGui input state, for a key inside the
    [KeysDown] array.  A press or a release sets the three modifier flags to
    bits 1 (control), 0 (shift) and 2 (alt) of [mods], marks the key as down
    (press) or up (release) and leaves every other key as it was; a release
    leaves the pending shortcut alone.  Any other action (a repeat) changes
    nothing at all. *)
Theorem keyCallback_io (ev : KeyEvent) (shortcut : Z * Z) (io0 : ImGuiIO) :
  (0 <= ev_key ev < KeysDown_size)%Z ->
  let st' := keyCallback ev (shortcut, io0) in
  ((ev_action ev = GLFW_PRESS \/ ev_action ev = GLFW_RELEASE) ->
   KeyCtrl (snd st') = Z.testbit (ev_mods ev) 1
   /\ KeyShift (snd st') = Z.testbit (ev_mods ev) 0
   /\ KeyAlt (snd st') = Z.testbit (ev_mods ev) 2
   /\ KeysDown (snd st') (ev_key ev) = (ev_action ev =? GLFW_PRESS)%Z
   /\ (forall key, key <> ev_key ev -> KeysDown (snd st') key = KeysDown io0 key))
  /\ (ev_action ev <> GLFW_PRESS -> fst st' = shortcut)
  /\ (ev_action ev <> GLFW_PRESS -> ev_action ev <> GLFW_RELEASE ->
      st' = (shortcut, io0)).
Proof.
  intro Hkey. cbv zeta. unfold keyCallback. split; [| split].
  - intro Haction.
    assert (Hio : snd (if (ev_action ev =? GLFW_PRESS)%Z
                       then ((ev_key ev, ev_mods ev),
                             key_io io0 (ev_key ev) (ev_mods ev) true)
                       else if (ev_action ev =? GLFW_RELEASE)%Z
                            then (shortcut, key_io io0 (ev_key ev) (ev_mods ev) false)
                            else (shortcut, io0))
                  = key_io io0 (ev_key ev) (ev_mods ev)
                           (ev_action ev =? GLFW_PRESS)%Z).
    { destruct Haction as [H | H]; rewrite H; reflexivity. }
    assert (Hinside : ((0 <=? ev_key ev) && (ev_key ev <? KeysDown_size))%Z = true).
    { apply andb_true_iff. split; [apply Z.leb_le | apply Z.ltb_lt]; lia. }
    rewrite Hio. unfold key_io. cbn [KeyCtrl KeyShift KeyAlt KeysDown].
    unfold set_key. rewrite Hinside.
    repeat split.
    + exact (land_bit (ev_mods ev) 1 ltac:(lia)).
    + exact (land_bit (ev_mods ev) 0 ltac:(lia)).
    + exact (land_bit (ev_mods ev) 2 ltac:(lia)).
    + now rewrite Z.eqb_refl.
    + intros key Hother. apply Z.eqb_neq in Hother. now rewrite Hother.
  - intro Hpress. apply Z.eqb_neq in Hpress. rewrite Hpress.
    destruct (ev_action ev =? GLFW_RELEASE)%Z; reflexivity.
  - intros Hpress Hrelease.
    apply Z.eqb_neq in Hpress. apply Z.eqb_neq in Hrelease.
    now rewrite Hpress, Hrelease.
Qed.

Lemma keyCallback_io_witness :
  let ev := {| ev_key := 83; ev_scancode := 0; ev_action := GLFW_RELEASE;
               ev_mods := 6 |}%Z in
  let st' := keyCallback ev ((83, 2)%Z, idle_io) in
  KeyCtrl (snd st') = Z.testbit (ev_mods ev) 1
  /\ KeyShift (snd st') = Z.testbit (ev_mods ev) 0
  /\ KeyAlt (snd st') = Z.testbit (ev_mods ev) 2
  /\ KeysDown (snd st') (ev_key ev) = (ev_action ev =? GLFW_PRESS)%Z
  /\ (forall key, key <> ev_key ev -> KeysDown (snd st') key = KeysDown idle_io key).
Proof.
  cbv zeta.
  refine (proj1 (keyCallback_io
                   {| ev_key := 83; ev_scancode := 0; ev_action := GLFW_RELEASE;
                      ev_mods := 6 |}%Z (83, 2)%Z idle_io _) _).
  - unfold KeysDown_size. cbn. lia.
  - right. reflexivity.
Defined.

(** ** The frame, continued *)

Section FrameRegistry.

Context {scalar : Type} (scalar_mul : scalar -> scalar -> scalar).

Abbreviation View := (View scalar).
Abbreviation Effect := (Effect scalar).
Abbreviation Window := (Window scalar).

Lemma menuBar_drawMenu (inp : FrameInput) (views : list View) :
  beginMenuBar inp = true ->
  filter isDrawMenuFx (fst (menuBar inp views))
  = map (fun view => FxDrawMenu (getName view)) (snd (menuBar inp views)).
Proof.
  intro Hbar. unfold menuBar. rewrite Hbar.
  destruct (viewMenuItems_views (menuItemClicked inp) views) as [_ Hitems].
  assert (Hall : forall vs : list View,
             filter isDrawMenuFx
                    (map (fun view => FxDrawMenu (getName view) : Effect) vs)
             = map (fun view => FxDrawMenu (getName view)) vs).
  { intro vs. apply filter_all. apply Forall_map. apply Forall_forall. reflexivity. }
  destruct (beginViewMenu inp).
  - destruct (viewMenuItems (menuItemClicked inp) views) as [items views'].
    cbn [fst snd] in *. now rewrite filter_app, Hitems, Hall.
  - cbn [fst snd app]. apply Hall.
Qed.

Lemma loop_body_filter (kind : Effect -> bool) (inp : FrameInput) (w : Window) :
  (forall e, isDeferredFx e = true -> kind e = false) ->
  (forall e, isLateFx e = true -> kind e = false) ->
  filter kind (fst (loop_body scalar_mul inp w)) = filter kind (fst (frameBegin inp w)).
Proof.
  intros Hdeferred Hlate. rewrite loop_body_fst, !filter_app.
  rewrite (filter_none kind (map FxDeferredCall _)).
  2:{ apply (none_weaken isDeferredFx); [assumption | apply deferred_fx]. }
  assert (Hrest : filter kind
                    (drawViews scalar_mul (m_globalScale w)
                       (entries (snd (frameBegin inp w)))
                     ++ [FxDrawCommonInterfaces; FxFrameEnd]) = []).
  { apply filter_none. apply (none_weaken isLateFx); [assumption | apply late_fx]. }
  rewrite filter_app in Hrest. rewrite Hrest. now rewrite !app_nil_r.
Qed.

(** The menu hook of every registered view is called once per frame, in
    registration order, whether the view is open or available or not, as
    long as the dock space window and the menu bar are begun. *)
Theorem drawMenu_every_view (inp : FrameInput) (w : Window) :
  beginDockSpace inp = true ->
  beginMenuBar inp = true ->
  filter isDrawMenuFx (fst (loop_body scalar_mul inp w))
  = map (fun view => FxDrawMenu (getName view)) (entries w).
Proof.
  intros Hdock Hbar.
  rewrite loop_body_filter by (intros [] H; simpl in *; congruence).
  rewrite (frameBegin_docked inp w Hdock). cbv zeta. cbn [fst filter isDrawMenuFx].
  rewrite !filter_app, (menuBar_drawMenu inp (entries w) Hbar).
  rewrite (filter_none isDrawMenuFx (fst (dispatchShortcut _ _))) by no_fx isShortcutFx.
  rewrite (filter_none isDrawMenuFx (welcome inp _)) by no_fx isWelcomeFx.
  rewrite !app_nil_r, (menuBar_views inp (entries w) Hdock), map_map.
  apply map_ext. intro view. now rewrite toggle_name.
Qed.

(** A shortcut pressed in a frame whose dock space window is not begun is
    offered to no view in that frame and stays pending; the next frame that
    begins the window offers it, even though no key is pressed then. *)
Theorem shortcut_waits_for_dock_space (inp1 inp2 : FrameInput) (w : Window)
  (key mods : Z) :
  beginDockSpace inp1 = false ->
  fst (glfwPollEvents (keyEvents inp1) (s_currShortcut w, io w)) = (key, mods) ->
  key <> (-1)%Z ->
  beginDockSpace inp2 = true ->
  no_press (keyEvents inp2) ->
  let w1 := snd (loop_body scalar_mul inp1 w) in
  filter isShortcutFx (fst (loop_body scalar_mul inp1 w)) = []
  /\ s_currShortcut w1 = (key, mods)
  /\ filter isShortcutFx (fst (loop_body scalar_mul inp2 w1))
     = offerShortcut (map (toggle inp2) (entries w)) key mods
  /\ s_currShortcut (snd (loop_body scalar_mul inp2 w1)) = no_shortcut.
Proof.
  intros Hdock1 Hpoll Hkey Hdock2 Hquiet. cbv zeta.
  destruct (loop_body_snd scalar_mul inp1 w) as (Hentries1 & Hshortcut1 & _).
  assert (Hpending : s_currShortcut (snd (loop_body scalar_mul inp1 w)) = (key, mods)).
  { rewrite Hshortcut1, (frameBegin_undocked inp1 w Hdock1). cbv zeta.
    cbn [snd s_currShortcut]. exact Hpoll. }
  assert (Hviews1 : entries (snd (loop_body scalar_mul inp1 w)) = entries w).
  { rewrite Hentries1, (frameBegin_undocked inp1 w Hdock1). reflexivity. }
  set (w1 := snd (loop_body scalar_mul inp1 w)) in *.
  assert (Hpoll2 : fst (glfwPollEvents (keyEvents inp2) (s_currShortcut w1, io w1))
                   = (key, mods)).
  { rewrite glfwPollEvents_no_press by assumption. exact Hpending. }
  destruct (frameBegin_shortcutFx inp2 w1 key mods Hdock2 Hpoll2 Hkey) as [Hfx Hreset].
  destruct (loop_body_snd scalar_mul inp2 w1) as (_ & Hshortcut2 & _).
  split; [| split; [| split]].
  - rewrite loop_body_filter by (intros [] H; simpl in *; congruence).
    rewrite (frameBegin_undocked inp1 w Hdock1). reflexivity.
  - exact Hpending.
  - rewrite loop_body_filter by (intros [] H; simpl in *; congruence).
    rewrite Hfx, frameBegin_entries, Hviews1. reflexivity.
  - now rewrite Hshortcut2.
Qed.

(** ** The loop *)

(** Once [glfwWindowShouldClose] answers true no further frame runs: the
    frames after it leave no trace, and the state is the one the last
    completed frame left. *)
Theorem loop_stops_at_close (before after : list FrameInput) (inp : FrameInput)
  (w : Window) :
  windowShouldClose inp = true ->
  loop scalar_mul (before ++ inp :: after) w = loop scalar_mul before w.
Proof.
  intro Hclose. revert w.
  induction before as [|first before IH]; intro w; cbn [app loop].
  - now rewrite Hclose.
  - destruct (windowShouldClose first); [reflexivity |].
    destruct (loop_body scalar_mul first w) as [fx w']. now rewrite IH.
Qed.

End FrameRegistry.

(** ** The welcome screen *)

Section WelcomeProperties.

Context (filename : string -> string).

Lemma recentHyperlinks_unclicked (clicked : nat -> bool) (index : nat)
  (files : list string) :
  (forall i, (i < List.length files)%nat -> clicked (index + i)%nat = false) ->
  recentHyperlinks filename clicked index files = map (recent_link filename) files.
Proof.
  revert index. induction files as [|path rest IH]; intros index Hquiet; simpl.
  - reflexivity.
  - pose proof (Hquiet 0%nat ltac:(simpl; lia)) as Hfirst.
    rewrite Nat.add_0_r in Hfirst. rewrite Hfirst. unfold recent_link at 1. f_equal.
    apply IH. intros i Hi.
    replace (S index + i)%nat with (index + S i)%nat by lia.
    apply Hquiet. simpl. lia.
Qed.

Lemma recentHyperlinks_clicked (clicked : nat -> bool) (index : nat)
  (before after : list string) (path : string) :
  (forall i, (i < List.length before)%nat -> clicked (index + i)%nat = false) ->
  clicked (index + List.length before)%nat = true ->
  recentHyperlinks filename clicked index (before ++ path :: after)
  = map (recent_link filename) (before ++ [path]) ++ [WfPost FileDropped path].
Proof.
  revert index. induction before as [|first before IH]; intros index Hquiet Hclick.
  - cbn [List.length app map recentHyperlinks] in *.
    rewrite Nat.add_0_r in Hclick. now rewrite Hclick.
  - cbn [app map recentHyperlinks].
    pose proof (Hquiet 0%nat ltac:(simpl; lia)) as Hfirst.
    rewrite Nat.add_0_r in Hfirst. rewrite Hfirst. unfold recent_link at 1.
    cbn [app]. f_equal.
    apply IH.
    + intros i Hi. replace (S index + i)%nat with (index + S i)%nat by lia.
      apply Hquiet. simpl. lia.
    + replace (S index + List.length before)%nat
        with (index + List.length (first :: before))%nat by (simpl; lia).
      exact Hclick.
Qed.

Lemma recentHyperlinks_posts (clicked : nat -> bool) (index : nat)
  (files : list string) :
  (List.length (filter isFileDroppedFx (recentHyperlinks filename clicked index files))
   <= 1)%nat.
Proof.
  revert index. induction files as [|path rest IH]; intro index; simpl.
  - lia.
  - destruct (clicked index); simpl; [lia | apply IH].
Qed.

Lemma BulletHyperlink_posts (inp : WelcomeInput) (label : string) (action : WelcomeFx) :
  isFileDroppedFx action = false ->
  filter isFileDroppedFx (BulletHyperlink inp label action) = [].
Proof.
  intro Haction. unfold BulletHyperlink. cbn [filter isFileDroppedFx].
  destruct (hyperlinkClicked inp label); cbn [filter]; [now rewrite Haction | reflexivity].
Qed.

Lemma DescriptionButton_posts (inp : WelcomeInput) (label : string) (action : WelcomeFx) :
  isFileDroppedFx action = false ->
  filter isFileDroppedFx (DescriptionButton inp label action) = [].
Proof.
  intro Haction. unfold DescriptionButton. cbn [filter isFileDroppedFx].
  destruct (buttonClicked inp label); cbn [filter]; [now rewrite Haction | reflexivity].
Qed.

(** The only [FileDropped] events of the welcome screen are those of the
    recent files. *)
Lemma drawWelcomeScreen_posts (inp : WelcomeInput) (files : list string) :
  filter isFileDroppedFx (drawWelcomeScreen filename inp files)
  = if beginTableLeft inp
    then filter isFileDroppedFx (recentHyperlinks filename (recentClicked inp) 0 files)
    else [].
Proof.
  unfold drawWelcomeScreen. rewrite filter_app.
  assert (Hright : filter isFileDroppedFx
                     (if beginTableRight inp
                      then DescriptionButton inp "Settings" (WfPost OpenWindow "Preferences")
                           ++ DescriptionButton inp "Latest Release"
                                (WfOpenWebpage "https://github.com/WerWolv/ImHex/releases/latest")
                           ++ DescriptionButton inp "Pattern Language Documentation"
                                (WfOpenWebpage "https://github.com/WerWolv/ImHex/wiki/Pattern-Language-Guide")
                           ++ DescriptionButton inp "Plugins API"
                                (WfOpenWebpage "https://github.com/WerWolv/ImHex/wiki/Plugins-Development-Guide")
                      else []) = []).
  { destruct (beginTableRight inp); [| reflexivity].
    rewrite !filter_app, !DescriptionButton_posts by reflexivity. reflexivity. }
  rewrite Hright, app_nil_r.
  destruct (beginTableLeft inp); [| reflexivity].
  rewrite !filter_app, !BulletHyperlink_posts by reflexivity.
  cbn [app]. apply app_nil_r.
Qed.

(** The recent files on the welcome screen.  Their hyperlinks are drawn in
    list order, labelled with the file name, up to the first one that is
    clicked: its path is posted as the one [FileDropped] event of the frame
    and the entries behind it are not drawn.  When none is clicked every
    entry is drawn and nothing is posted.  In no case does the screen post
    more than one [FileDropped] event. *)
Theorem recent_file_click (inp : WelcomeInput) (files : list string) :
  (List.length (filter isFileDroppedFx (drawWelcomeScreen filename inp files)) <= 1)%nat
  /\ (forall before path after,
        files = before ++ path :: after ->
        (forall i, (i < List.length before)%nat -> recentClicked inp i = false) ->
        recentClicked inp (List.length before) = true ->
        recentHyperlinks filename (recentClicked inp) 0 files
        = map (recent_link filename) (before ++ [path]) ++ [WfPost FileDropped path]
        /\ (beginTableLeft inp = true ->
            filter isFileDroppedFx (drawWelcomeScreen filename inp files)
            = [WfPost FileDropped path]))
  /\ ((forall i, (i < List.length files)%nat -> recentClicked inp i = false) ->
      recentHyperlinks filename (recentClicked inp) 0 files = map (recent_link filename) files
      /\ filter isFileDroppedFx (drawWelcomeScreen filename inp files) = []).
Proof.
  assert (Hlinks : forall paths, filter isFileDroppedFx (map (recent_link filename) paths) = []).
  { intro paths. apply filter_none. unfold none. apply Forall_map.
    apply Forall_forall. reflexivity. }
  rewrite drawWelcomeScreen_posts. split; [| split].
  - destruct (beginTableLeft inp); [apply recentHyperlinks_posts | simpl; lia].
  - intros before path after Hfiles Hquiet Hclick. subst files.
    rewrite (recentHyperlinks_clicked (recentClicked inp) 0 before after path Hquiet Hclick).
    split; [reflexivity |]. intro Hleft. rewrite Hleft, filter_app, Hlinks. reflexivity.
  - intro Hquiet.
    rewrite (recentHyperlinks_unclicked (recentClicked inp) 0 files Hquiet).
    split; [reflexivity |]. rewrite Hlinks. now destruct (beginTableLeft inp).
Qed.

End WelcomeProperties.

(** ** The further properties at concrete views and frames *)

Lemma drawMenu_every_view_witness :
  let w := a_window [a_view "Hex Editor" false true false;
                     a_view "Pattern" true false false] [] no_shortcut in
  filter isDrawMenuFx (fst (loop_body Z.mul (a_frame []) w))
  = map (fun view => FxDrawMenu (getName view)) (entries w).
Proof.
  cbv zeta.
  exact (drawMenu_every_view Z.mul (a_frame [])
           (a_window [a_view "Hex Editor" false true false;
                      a_view "Pattern" true false false] [] no_shortcut)
           eq_refl eq_refl).
Defined.

Lemma shortcut_waits_for_dock_space_witness :
  let w := a_window [a_view "Hex Editor" true true true] [] no_shortcut in
  let inp1 := an_undocked_frame [press 83 2] in
  let w1 := snd (loop_body Z.mul inp1 w) in
  filter isShortcutFx (fst (loop_body Z.mul inp1 w)) = []
  /\ s_currShortcut w1 = (83, 2)%Z
  /\ filter isShortcutFx (fst (loop_body Z.mul (a_frame []) w1))
     = offerShortcut (map (toggle (a_frame [])) (entries w)) 83 2
  /\ s_currShortcut (snd (loop_body Z.mul (a_frame []) w1)) = no_shortcut.
Proof.
  cbv zeta.
  refine (shortcut_waits_for_dock_space Z.mul
            (an_undocked_frame [press 83 2]) (a_frame [])
            (a_window [a_view "Hex Editor" true true true] [] no_shortcut)
            83 2 eq_refl eq_refl _ eq_refl _).
  - lia.
  - constructor.
Defined.

Lemma loop_stops_at_close_witness :
  let w := a_window [a_view "Hex Editor" true true false] [MkCall 1 []] no_shortcut in
  loop Z.mul ([a_frame []] ++ a_closing_frame :: [a_frame [press 83 2]]) w
  = loop Z.mul [a_frame []] w.
Proof.
  cbv zeta.
  exact (loop_stops_at_close Z.mul [a_frame []] [a_frame [press 83 2]]
           a_closing_frame
           (a_window [a_view "Hex Editor" true true false] [MkCall 1 []] no_shortcut)
           eq_refl).
Defined.

Lemma recent_file_click_witness :
  let files := ["/data/a.bin"; "/data/b.bin"; "/data/c.bin"] in
  let name := fun path : string => substring 6 5 path in
  recentHyperlinks name (recentClicked (a_welcome_click 1)) 0 files
  = map (recent_link name) (["/data/a.bin"] ++ ["/data/b.bin"])
      ++ [WfPost FileDropped "/data/b.bin"]
  /\ (beginTableLeft (a_welcome_click 1) = true ->
      filter isFileDroppedFx (drawWelcomeScreen name (a_welcome_click 1) files)
      = [WfPost FileDropped "/data/b.bin"]).
Proof.
  cbv zeta.
  apply (proj1 (proj2 (recent_file_click (fun path : string => substring 6 5 path)
                         (a_welcome_click 1)
                         ["/data/a.bin"; "/data/b.bin"; "/data/c.bin"]))
           ["/data/a.bin"] "/data/b.bin" ["/data/c.bin"]).
  - reflexivity.
  - intros i Hi. simpl in Hi. assert (i = 0%nat) as -> by lia. reflexivity.
  - reflexivity.
Defined.
